(** * Minesweeper knowledge base: a shallow embedding of [minesweeper.py]

    The development follows the two classes of the inference engine,
    [Sentence] and [MinesweeperAI].  Python sets of cells are finite sets
    [gset (Z * Z)], Python integers are [Z], and the list [self.knowledge]
    of mutable [Sentence] objects is a list of sentence values in which the
    position of an entry stands for the identity of the object: the source
    never stores one object at two positions, so that mutating "every
    sentence of the list" is a map over the list, and a local variable that
    aliases an entry ([newsentence], the loop variable [sentence]) is the
    index of that entry, read again in the current state at each use. *)

From stdpp Require Import base numbers list sets gmap.

Set Warnings "-clear-no-such-hyp".

Abbreviation Cell := (Z * Z)%type.

(** ** class Sentence *)

Module Sentence.

Record t : Type := mk { cells : gset Cell; count : Z }.

#[global] Instance t_eq_dec : EqDecision t.
Proof. solve_decision. Defined.

(** [__eq__]: equal cell sets and equal counts. *)
Definition eqb (self other : t) : bool :=
  bool_decide (cells self = cells other) && bool_decide (count self = count other).

(** [known_mines]: [self.cells if len(self.cells) == self.count else None]. *)
Definition known_mines (self : t) : option (gset Cell) :=
  if decide (Z.of_nat (size (cells self)) = count self) then Some (cells self) else None.

(** [known_safes]: [self.cells if self.count == 0 else None]. *)
Definition known_safes (self : t) : option (gset Cell) :=
  if decide (count self = 0%Z) then Some (cells self) else None.

(** [mark_mine]: the loop rebuilds the cell set in [newcells], and
    decrements the count when it meets [cell]. *)
Definition mark_mine_step (cell : Cell) (acc : gset Cell * Z) (maybe : Cell)
  : gset Cell * Z :=
  if decide (maybe ≠ cell) then ({[maybe]} ∪ acc.1, acc.2)
  else (acc.1, (acc.2 - 1)%Z).

Definition mark_mine (cell : Cell) (self : t) : t :=
  let r := foldl (mark_mine_step cell) (∅, count self) (elements (cells self)) in
  mk r.1 r.2.

(** [mark_safe]: the same loop without the decrement. *)
Definition mark_safe_step (cell : Cell) (newcells : gset Cell) (maybe : Cell)
  : gset Cell :=
  if decide (maybe ≠ cell) then {[maybe]} ∪ newcells else newcells.

Definition mark_safe (cell : Cell) (self : t) : t :=
  mk (foldl (mark_safe_step cell) ∅ (elements (cells self))) (count self).

End Sentence.

(** Truth value of [set or None] in a Python condition: [None] and the empty
    set are false. *)
Definition truthy (r : option (gset Cell)) : bool :=
  match r with
  | Some X => bool_decide (X ≠ ∅)
  | None => false
  end.

(** Iterating over [set or None]: the loops of the source only run when the
    value is a set. *)
Definition iterable (r : option (gset Cell)) : list Cell :=
  match r with
  | Some X => elements X
  | None => []
  end.

(** ** class MinesweeperAI *)

Module MinesweeperAI.

Record t : Type := mk {
  height : Z;
  width : Z;
  moves_made : gset Cell;
  mines : gset Cell;
  safes : gset Cell;
  knowledge : list Sentence.t
}.

#[global] Instance t_eq_dec : EqDecision t.
Proof. solve_decision. Defined.

(** [__init__] *)
Definition init (height width : Z) : t := mk height width ∅ ∅ ∅ [].

Definition set_knowledge (k : list Sentence.t) (self : t) : t :=
  mk (height self) (width self) (moves_made self) (mines self) (safes self) k.

(** [mark_mine]: add to [self.mines], then update every sentence in place. *)
Definition mark_mine (cell : Cell) (self : t) : t :=
  mk (height self) (width self) (moves_made self)
     ({[cell]} ∪ mines self) (safes self)
     (Sentence.mark_mine cell <$> knowledge self).

(** [mark_safe]: add to [self.safes], then update every sentence in place. *)
Definition mark_safe (cell : Cell) (self : t) : t :=
  mk (height self) (width self) (moves_made self)
     (mines self) ({[cell]} ∪ safes self)
     (Sentence.mark_safe cell <$> knowledge self).

(** [for c in cs: self.mark_mine(c)] and [for c in cs: self.mark_safe(c)];
    the set iterated over is never the one being rebuilt, since
    [Sentence.mark_mine] and [Sentence.mark_safe] assign a fresh set. *)
Definition mark_mines (cs : list Cell) (self : t) : t :=
  foldl (λ st c, mark_mine c st) self cs.

Definition mark_safes (cs : list Cell) (self : t) : t :=
  foldl (λ st c, mark_safe c st) self cs.

(** [get_neighbors]: the double loop over [range(-1, 2)]. *)
Definition get_neighbors_step (self : t) (x y i : Z) (acc : gset Cell * Z) (j : Z)
  : gset Cell * Z :=
  let c : Cell := ((x + i)%Z, (y + j)%Z) in
  if bool_decide (i = 0%Z ∧ j = 0%Z) then acc
  else if bool_decide ((0 ≤ x + i)%Z ∧ (x + i < height self)%Z ∧
                       (0 ≤ y + j)%Z ∧ (y + j < width self)%Z)
  then
    let neighbors :=
      if bool_decide ((c ∉ safes self) ∧ (c ∉ mines self))
      then {[c]} ∪ acc.1 else acc.1 in
    let count :=
      if bool_decide (c ∈ mines self) then (acc.2 - 1)%Z else acc.2 in
    (neighbors, count)
  else acc.

Definition range_m1_2 : list Z := [-1; 0; 1]%Z.

Definition get_neighbors (self : t) (cell : Cell) (count : Z) : gset Cell * Z :=
  foldl (λ acc i, foldl (get_neighbors_step self cell.1 cell.2 i) acc range_m1_2)
        (∅, count) range_m1_2.

(** *** add_knowledge, phase by phase *)

(** Lines 201-205: record the move and mark the cell safe. *)
Definition record_move (cell : Cell) (self : t) : t :=
  mark_safe cell
    (mk (height self) (width self) ({[cell]} ∪ moves_made self)
        (mines self) (safes self) (knowledge self)).

(** Lines 207-212: [self.knowledge.append(Sentence(newcells, count))]. *)
Definition append_sentence (newcells : gset Cell) (count : Z) (self : t) : t :=
  set_knowledge (knowledge self ++ [Sentence.mk newcells count]) self.

(** Lines 214-222: the two immediate conclusions from the new sentence. *)
Definition resolve_new (newcells : gset Cell) (count : Z) (self : t) : t :=
  let self :=
    if decide (count = 0%Z) then mark_safes (elements newcells) self else self in
  if decide (Z.of_nat (size newcells) = count) then mark_mines (elements newcells) self
  else self.

(** The three-way branch shared by the subset and the superset case
    (lines 235-247 and 253-265). *)
Definition conclude (setdiff : gset Cell) (cntdiff : Z)
    (acc : t * list Sentence.t) : t * list Sentence.t :=
  if decide (Z.of_nat (size setdiff) = cntdiff) then
    (mark_mines (elements setdiff) acc.1, acc.2)
  else if decide (cntdiff = 0%Z) then
    (mark_safes (elements setdiff) acc.1, acc.2)
  else (acc.1, acc.2 ++ [Sentence.mk setdiff cntdiff]).

(** One iteration of [for sentence in self.knowledge] (lines 226-265).
    [i] is the position of [sentence], [newsentence] the position of the
    appended sentence; both are read in the current state, because marking
    a cell mutates the objects they refer to.  [newcells] and [count] are
    the locals of [add_knowledge], which no marking changes. *)
Definition infer_step (newcells : gset Cell) (count : Z) (newsentence : nat)
    (acc : t * list Sentence.t) (i : nat) : t * list Sentence.t :=
  match knowledge acc.1 !! i, knowledge acc.1 !! newsentence with
  | Some sentence, Some new =>
      if Sentence.eqb sentence new then acc
      else
        let acc :=
          if decide (Sentence.cells sentence ⊆ newcells) then
            conclude (newcells ∖ Sentence.cells sentence)
                     (count - Sentence.count sentence)%Z acc
          else acc in
        match knowledge acc.1 !! i with
        | Some sentence =>
            if decide (newcells ⊆ Sentence.cells sentence) then
              conclude (Sentence.cells sentence ∖ newcells)
                       (Sentence.count sentence - count)%Z acc
            else acc
        | None => acc
        end
  | _, _ => acc
  end.

Definition draw_inferences (newcells : gset Cell) (count : Z) (newsentence : nat)
    (self : t) : t * list Sentence.t :=
  foldl (infer_step newcells count newsentence) (self, [])
        (seq 0 (length (knowledge self))).

(** Lines 270-276: keep the first sentence of every class of [==]. *)
Definition unique_step (unique : list Sentence.t) (sentence : Sentence.t)
  : list Sentence.t :=
  if existsb (Sentence.eqb sentence) unique then unique else unique ++ [sentence].

Definition remove_duplicates (self : t) : t :=
  set_knowledge (foldl unique_step [] (knowledge self)) self.

(** One iteration of the final loop (lines 280-291).  Each [continue] is
    the last statement of an inner [for] body, so it only moves that inner
    loop on; after the inner loop control reaches the second [if], with the
    sentence as the marking left it, and then [final.append(sentence)].
    [final] holds references, here positions. *)
Definition cleanup_step (acc : t * list nat) (i : nat) : t * list nat :=
  let self :=
    match knowledge acc.1 !! i with
    | Some sentence =>
        if truthy (Sentence.known_mines sentence)
        then mark_mines (iterable (Sentence.known_mines sentence)) acc.1
        else acc.1
    | None => acc.1
    end in
  let self :=
    match knowledge self !! i with
    | Some sentence =>
        if truthy (Sentence.known_safes sentence)
        then mark_safes (iterable (Sentence.known_safes sentence)) self
        else self
    | None => self
    end in
  (self, acc.2 ++ [i]).

Definition final_cleanup (self : t) : t :=
  let r := foldl cleanup_step (self, []) (seq 0 (length (knowledge self))) in
  set_knowledge (omap (λ i, knowledge r.1 !! i) r.2) r.1.

(** The state after line 212, together with the locals [newcells], [count]. *)
Definition with_new_sentence (cell : Cell) (count : Z) (self : t)
  : t * (gset Cell * Z) :=
  let self := record_move cell self in
  let nc := get_neighbors self cell count in
  (append_sentence nc.1 nc.2 self, nc).

(** The state before the "Remove duplicates" block (line 268). *)
Definition extended (cell : Cell) (count : Z) (self : t) : t :=
  let r := with_new_sentence cell count self in
  let newsentence := length (knowledge (record_move cell self)) in
  let self := resolve_new r.2.1 r.2.2 r.1 in
  let di := draw_inferences r.2.1 r.2.2 newsentence self in
  set_knowledge (knowledge di.1 ++ di.2) di.1.

Definition add_knowledge (cell : Cell) (count : Z) (self : t) : t :=
  final_cleanup (remove_duplicates (extended cell count self)).

(** [make_safe_move]: [safe_cells] is a fresh set, so [pop] leaves the
    state alone; the result is paired with the state the method leaves
    behind.  [pop] returns some element of a non-empty set; the first
    element of the enumeration stands for it. *)
Definition make_safe_move (self : t) : option Cell * t :=
  let safe_cells := safes self ∖ moves_made self in
  (if decide (0 < size safe_cells) then head (elements safe_cells) else None, self).

(** [range(n)] *)
Definition range (n : Z) : list Z := seqZ 0 n.

(** [make_random_move]: the double loop collects the candidates. *)
Definition all_moves_step (self : t) (i : Z) (all_moves : gset Cell) (j : Z)
  : gset Cell :=
  if bool_decide (((i, j) ∉ mines self) ∧ ((i, j) ∉ moves_made self))
  then {[(i, j)]} ∪ all_moves else all_moves.

Definition all_moves (self : t) : gset Cell :=
  foldl (λ acc i, foldl (all_moves_step self i) acc (range (width self)))
        ∅ (range (height self)).

(** [random.choice(tuple(all_moves))] returns the element of the tuple at a
    random index below its length; [randbelow n] stands for the index that
    the generator draws for a tuple of length [n], which is below [n]. *)
Definition make_random_move (randbelow : nat → nat) (self : t) : option Cell :=
  let all_moves := all_moves self in
  if decide (0 < size all_moves)
  then elements all_moves !! randbelow (size all_moves)
  else None.

End MinesweeperAI.

Import MinesweeperAI.

(** ** Vocabulary of the specification *)

(** The eight positions around a cell, in the order of the double loop. *)
Definition offsets : list (Z * Z) :=
  [(-1, -1); (-1, 0); (-1, 1); (0, -1); (0, 1); (1, -1); (1, 0); (1, 1)]%Z.

Definition around (cell : Cell) : list Cell :=
  (λ d : Z * Z, ((cell.1 + d.1)%Z, (cell.2 + d.2)%Z)) <$> offsets.

Definition in_bounds (h w : Z) (c : Cell) : Prop :=
  (0 ≤ c.1)%Z ∧ (c.1 < h)%Z ∧ (0 ≤ c.2)%Z ∧ (c.2 < w)%Z.

#[global] Instance in_bounds_dec h w c : Decision (in_bounds h w c).
Proof. unfold in_bounds. apply _. Defined.

(** A cell other than [cell] within one row and one column of it. *)
Definition adjacent (cell c : Cell) : Prop :=
  c ≠ cell ∧ (cell.1 - 1 ≤ c.1)%Z ∧ (c.1 ≤ cell.1 + 1)%Z ∧
  (cell.2 - 1 ≤ c.2)%Z ∧ (c.2 ≤ cell.2 + 1)%Z.

(** The in-bounds neighbors of a cell on an [h] by [w] board. *)
Definition board_neighbors (h w : Z) (cell : Cell) : gset Cell :=
  list_to_set (filter (in_bounds h w) (around cell)).

(** What the body of the double loop does with one position. *)
Definition visit (st : t) (acc : gset Cell * Z) (c : Cell) : gset Cell * Z :=
  if decide (in_bounds (height st) (width st) c) then
    (if decide ((c ∉ safes st) ∧ (c ∉ mines st)) then {[c]} ∪ acc.1 else acc.1,
     if decide (c ∈ mines st) then (acc.2 - 1)%Z else acc.2)
  else acc.

(** ** class Minesweeper

    The board is the list of rows of booleans that [__init__] builds.  A
    Python subscript raises [IndexError] outside the list and counts a
    negative index from the end; [None] stands for the exception.  The
    random numbers that [__init__] draws are an argument: the list of the
    pairs that the successive calls of [randrange] return. *)

Module Minesweeper.

Record t : Type := mk {
  height : Z;
  width : Z;
  mines : gset Cell;
  board : list (list bool);
  mines_found : gset Cell
}.

(** [l[i]] *)
Definition index {A} (l : list A) (i : Z) : option nat :=
  if decide (0 ≤ i)%Z then
    if decide (i < Z.of_nat (length l))%Z then Some (Z.to_nat i) else None
  else
    if decide (- Z.of_nat (length l) ≤ i)%Z
    then Some (Z.to_nat (Z.of_nat (length l) + i)) else None.

Definition getitem {A} (l : list A) (i : Z) : option A :=
  match index l i with
  | Some k => l !! k
  | None => None
  end.

(** [l[i] = x] *)
Definition setitem {A} (l : list A) (i : Z) (x : A) : option (list A) :=
  match index l i with
  | Some k => Some (<[k:=x]> l)
  | None => None
  end.

(** [self.board[i][j]] *)
Definition board_get (self : t) (i j : Z) : option bool :=
  match getitem (board self) i with
  | Some row => getitem row j
  | None => None
  end.

(** [self.board[i][j] = True] *)
Definition board_set_true (self : t) (i j : Z) : option (list (list bool)) :=
  match getitem (board self) i with
  | Some row =>
      match setitem row j true with
      | Some row' => setitem (board self) i row'
      | None => None
      end
  | None => None
  end.

(** [is_mine] *)
Definition is_mine (self : t) (cell : Cell) : option bool :=
  board_get self cell.1 cell.2.

(** [range(a, b)] *)
Definition range2 (a b : Z) : list Z := seqZ a (b - a).

(** [nearby_mines]: one iteration of the inner loop; once a subscript has
    raised, the exception is the result. *)
Definition nearby_mines_step (self : t) (cell : Cell) (i : Z) (acc : option Z)
    (j : Z) : option Z :=
  match acc with
  | None => None
  | Some count =>
      if decide ((i, j) = cell) then Some count
      else if bool_decide ((0 ≤ i)%Z ∧ (i < height self)%Z ∧
                           (0 ≤ j)%Z ∧ (j < width self)%Z)
      then
        match board_get self i j with
        | Some true => Some (count + 1)%Z
        | Some false => Some count
        | None => None
        end
      else Some count
  end.

Definition nearby_mines (self : t) (cell : Cell) : option Z :=
  foldl (λ acc i,
           foldl (nearby_mines_step self cell i) acc
                 (range2 (cell.2 - 1) (cell.2 + 2)))
        (Some 0%Z) (range2 (cell.1 - 1) (cell.1 + 2)).

(** [won] *)
Definition won (self : t) : bool := bool_decide (mines_found self = mines self).

(** [__init__]: the two loops that build the empty field. *)
Definition empty_row (width : Z) : list bool :=
  foldl (λ row _, row ++ [false]) [] (MinesweeperAI.range width).

Definition empty_board (height width : Z) : list (list bool) :=
  foldl (λ board _, board ++ [empty_row width]) [] (MinesweeperAI.range height).

(** How a call ends: it returns, it raises, or it is still in its loop when
    the supply of random numbers is used up. *)
Inductive outcome (A : Type) : Type :=
| Returned (a : A)
| Raised
| Running.
Arguments Returned {A} a.
Arguments Raised {A}.
Arguments Running {A}.

(** The [while] loop that adds the mines.  [randrange(n)] raises
    [ValueError] when [n <= 0]. *)
Fixpoint place_mines (mines : Z) (draws : list (Z * Z)) (self : t) : outcome t :=
  if decide (Z.of_nat (size (Minesweeper.mines self)) = mines) then Returned self
  else if decide (height self ≤ 0)%Z then Raised
  else if decide (width self ≤ 0)%Z then Raised
  else
    match draws with
    | [] => Running
    | (i, j) :: draws =>
        match board_get self i j with
        | None => Raised
        | Some true => place_mines mines draws self
        | Some false =>
            match board_set_true self i j with
            | None => Raised
            | Some board' =>
                place_mines mines draws
                  (mk (height self) (width self)
                      ({[(i, j)]} ∪ Minesweeper.mines self) board'
                      (mines_found self))
            end
        end
    end.

Definition init (height width mines : Z) (draws : list (Z * Z)) : outcome t :=
  match place_mines mines draws (mk height width ∅ (empty_board height width) ∅) with
  | Returned self =>
      Returned (mk (Minesweeper.height self) (Minesweeper.width self)
                   (Minesweeper.mines self) (board self) ∅)
  | Raised => Raised
  | Running => Running
  end.

End Minesweeper.

(** The board agrees with the set of mines: it has [height] rows of [width]
    booleans, the boolean of a cell tells whether the cell is in [mines],
    and every mine lies on the board.  [__init__] establishes this. *)
Definition well_formed (g : Minesweeper.t) : Prop :=
  length (Minesweeper.board g) = Z.to_nat (Minesweeper.height g) ∧
  Forall (λ row, length row = Z.to_nat (Minesweeper.width g)) (Minesweeper.board g) ∧
  (∀ i j row, Minesweeper.board g !! i = Some row →
     row !! j = Some true ↔ (Z.of_nat i, Z.of_nat j) ∈ Minesweeper.mines g) ∧
  (∀ c, c ∈ Minesweeper.mines g →
     in_bounds (Minesweeper.height g) (Minesweeper.width g) c).

(** ** Correct usage

    The knowledge base trusts its caller.  Correct usage is stated against a
    ground truth [M], the set of cells that hold a mine: a clue is truthful
    when the probed cell holds no mine and the count is the number of
    in-bounds neighbors that do. *)

Definition truthful (M : gset Cell) (h w : Z) (cell : Cell) (count : Z) : Prop :=
  (cell ∉ M) ∧ count = Z.of_nat (size (board_neighbors h w cell ∩ M)).

(** A sentence agrees with [M] when its count is the number of its cells
    that hold a mine. *)
Definition sound_sentence (M : gset Cell) (s : Sentence.t) : Prop :=
  Z.of_nat (size (Sentence.cells s ∩ M)) = Sentence.count s.

(** A state agrees with [M]. *)
Definition Sound (M : gset Cell) (st : t) : Prop :=
  mines st ⊆ M ∧ safes st ## M ∧ Forall (sound_sentence M) (knowledge st).

(** The public operations that change the state, and runs of them. *)
Inductive call : Type :=
| AddKnowledge (cell : Cell) (count : Z)
| MarkMine (cell : Cell)
| MarkSafe (cell : Cell).

Definition exec (st : t) (c : call) : t :=
  match c with
  | AddKnowledge cell count => add_knowledge cell count st
  | MarkMine cell => mark_mine cell st
  | MarkSafe cell => mark_safe cell st
  end.

Definition run (calls : list call) (st : t) : t := foldl exec st calls.

Definition correct_call (M : gset Cell) (h w : Z) (c : call) : Prop :=
  match c with
  | AddKnowledge cell count => truthful M h w cell count
  | MarkMine cell => cell ∈ M
  | MarkSafe cell => cell ∉ M
  end.

(** ** Runs of markings

    [reach Pm Ps st st'] holds when [st'] comes from [st] by marking cells,
    mines among the cells of [Pm] and safes among those of [Ps]. *)
Inductive reach (Pm Ps : Cell → Prop) : t → t → Prop :=
| reach_refl st : reach Pm Ps st st
| reach_mine c st st' :
    Pm c → reach Pm Ps (mark_mine c st) st' → reach Pm Ps st st'
| reach_safe c st st' :
    Ps c → reach Pm Ps (mark_safe c st) st' → reach Pm Ps st st'.

(** No restriction on the cells marked. *)
Definition any_cell (c : Cell) : Prop := True.

(** The sentence with no cells and count 0. *)
Definition empty_sentence : Sentence.t := Sentence.mk ∅ 0.

(** ** Boards used as examples *)

(** After the clue 1 at (0,1) on a 1 by 5 board. *)
Definition row5 : t := add_knowledge (0, 1)%Z 1 (init 1 5).

(** A 2 by 3 board with mines at (0,0) and (0,1), after the truthful clues
    at (0,2) and (1,2). *)
Definition board23 : t :=
  run [AddKnowledge (0, 2)%Z 1; AddKnowledge (1, 2)%Z 1] (init 2 3).

(** The mines and the truthful clues of the 2 by 3 board. *)
Definition mines23 : gset Cell := {[(0, 0)%Z; (0, 1)%Z]}.

Definition calls23 : list call :=
  [AddKnowledge (0, 2)%Z 1; AddKnowledge (1, 2)%Z 1; AddKnowledge (1, 1)%Z 2].

(** A 3 by 3 board with mines at (0,0) and (0,2), after the truthful clues
    at (0,1) and (1,1); scenario D occurs on it with the clue at (2,1). *)
Definition mines33 : gset Cell := {[(0, 0)%Z; (0, 2)%Z]}.

Definition board33 : t :=
  run [AddKnowledge (0, 1)%Z 2; AddKnowledge (1, 1)%Z 2] (init 3 3).

(** ** Following a sentence through a call *)

(** [s] holds only mines, and every cell of [D] is in [s] or already in
    [mines]. *)
Definition tracked (M D : gset Cell) (st : t) (s : Sentence.t) : Prop :=
  Sentence.cells s ⊆ M ∧ D ⊆ Sentence.cells s ∪ mines st.

Definition tracked_at (M D : gset Cell) (i : nat) (st : t) : Prop :=
  ∃ s, knowledge st !! i = Some s ∧ tracked M D st s.

(** ** Where the cells of the sentences come from *)

(** Every cell of every sentence of the list satisfies [P]. *)
Definition cells_in (P : Cell → Prop) (k : list Sentence.t) : Prop :=
  Forall (λ s, ∀ c, c ∈ Sentence.cells s → P c) k.

(** The state holds cells of [P] only, apart from the mines of [M0] and the
    safe cells of [S0]. *)
Definition confined (P : Cell → Prop) (M0 S0 : gset Cell) (st : t) : Prop :=
  cells_in P (knowledge st) ∧
  (∀ c, c ∈ mines st → c ∈ M0 ∨ P c) ∧
  (∀ c, c ∈ safes st → c ∈ S0 ∨ P c).

(** A run of [add_knowledge] calls, given as the list of clues. *)
Definition run_clues (clues : list (Cell * Z)) (st : t) : t :=
  run ((λ p : Cell * Z, AddKnowledge p.1 p.2) <$> clues) st.

(** Whether a position counts: it is on the board and holds a mine. *)
Definition counts (g : Minesweeper.t) (c : Cell) : Z :=
  if decide (in_bounds (Minesweeper.height g) (Minesweeper.width g) c ∧
             c ∈ Minesweeper.mines g)
  then 1%Z else 0%Z.

(** The game on a 2 by 3 board with mines at (0,0) and (0,1). *)
Definition game23 : Minesweeper.t :=
  Minesweeper.mk 2 3 mines23
    [[true; true; false]; [false; false; false]] ∅.

(** * Closed forms of the marking loops *)

Section SentenceMarks.

Implicit Types (cell c : Cell) (s : Sentence.t) (X : gset Cell).

Lemma foldl_mark_safe_step cell (l : list Cell) X :
  foldl (Sentence.mark_safe_step cell) X l = X ∪ (list_to_set l ∖ {[cell]}).
Proof.
  revert X. induction l as [|a l IH]; intros X; simpl.
  - set_solver.
  - rewrite IH. unfold Sentence.mark_safe_step.
    destruct (decide (a ≠ cell)) as [Hne|Heq].
    + set_solver.
    + apply dec_stable in Heq. subst a. set_solver.
Qed.

Lemma mark_safe_cells cell s :
  Sentence.cells (Sentence.mark_safe cell s) = Sentence.cells s ∖ {[cell]}.
Proof.
  unfold Sentence.mark_safe; simpl. rewrite foldl_mark_safe_step.
  rewrite list_to_set_elements_L. set_solver.
Qed.

Lemma mark_safe_count cell s :
  Sentence.count (Sentence.mark_safe cell s) = Sentence.count s.
Proof. reflexivity. Qed.

Lemma foldl_mark_mine_step cell (l : list Cell) X (n : Z) :
  NoDup l →
  foldl (Sentence.mark_mine_step cell) (X, n) l
  = (X ∪ (list_to_set l ∖ {[cell]}),
     if decide (cell ∈ l) then (n - 1)%Z else n).
Proof.
  revert X n. induction l as [|a l IH]; intros X n Hnd; simpl.
  - destruct (decide (cell ∈ [])) as [H|_]; [by apply not_elem_of_nil in H|].
    f_equal. set_solver.
  - apply NoDup_cons in Hnd as [Ha Hnd].
    unfold Sentence.mark_mine_step at 2; simpl.
    destruct (decide (a ≠ cell)) as [Hne|Heq].
    + rewrite IH by done. f_equal; [set_solver|].
      destruct (decide (cell ∈ l)) as [Hin|Hin];
        destruct (decide (cell ∈ a :: l)) as [Hin'|Hin']; try done.
      * exfalso. apply Hin'. by right.
      * exfalso. apply elem_of_cons in Hin' as [->|?]; done.
    + apply dec_stable in Heq. subst a. rewrite IH by done.
      destruct (decide (cell ∈ l)) as [Hin|_]; [done|].
      destruct (decide (cell ∈ cell :: l)) as [_|Hin']; [|exfalso; apply Hin'; left].
      f_equal. set_solver.
Qed.

Lemma mark_mine_cells cell s :
  Sentence.cells (Sentence.mark_mine cell s) = Sentence.cells s ∖ {[cell]}.
Proof.
  unfold Sentence.mark_mine.
  rewrite foldl_mark_mine_step by apply NoDup_elements. simpl.
  rewrite list_to_set_elements_L. set_solver.
Qed.

Lemma mark_mine_count cell s :
  Sentence.count (Sentence.mark_mine cell s)
  = if decide (cell ∈ Sentence.cells s) then (Sentence.count s - 1)%Z
    else Sentence.count s.
Proof.
  unfold Sentence.mark_mine.
  rewrite foldl_mark_mine_step by apply NoDup_elements. simpl.
  destruct (decide (cell ∈ elements (Sentence.cells s))) as [H|H];
    rewrite elem_of_elements in H.
  - by rewrite decide_True.
  - by rewrite decide_False.
Qed.

Lemma sentence_eq s1 s2 :
  Sentence.cells s1 = Sentence.cells s2 →
  Sentence.count s1 = Sentence.count s2 → s1 = s2.
Proof. destruct s1, s2; simpl; congruence. Qed.

Lemma mark_mine_absent cell s :
  cell ∉ Sentence.cells s → Sentence.mark_mine cell s = s.
Proof.
  intros H. apply sentence_eq.
  - rewrite mark_mine_cells. set_solver.
  - rewrite mark_mine_count. by rewrite decide_False.
Qed.

Lemma mark_safe_absent cell s :
  cell ∉ Sentence.cells s → Sentence.mark_safe cell s = s.
Proof.
  intros H. apply sentence_eq.
  - rewrite mark_safe_cells. set_solver.
  - apply mark_safe_count.
Qed.

Lemma eqb_eq s1 s2 : Sentence.eqb s1 s2 = true ↔ s1 = s2.
Proof.
  unfold Sentence.eqb. rewrite andb_true_iff, !bool_decide_eq_true. split.
  - intros [??]. by apply sentence_eq.
  - by intros ->.
Qed.

End SentenceMarks.

Section Marks.

Implicit Types (cell c : Cell) (s : Sentence.t) (st : t) (cs : list Cell).

Lemma state_eq st1 st2 :
  height st1 = height st2 → width st1 = width st2 →
  moves_made st1 = moves_made st2 → mines st1 = mines st2 →
  safes st1 = safes st2 → knowledge st1 = knowledge st2 → st1 = st2.
Proof. destruct st1, st2; simpl; congruence. Qed.

Lemma set_knowledge_id st : set_knowledge (knowledge st) st = st.
Proof. by destruct st. Qed.

(** What a run of markings leaves fixed, and what it does to the list. *)
Lemma mark_mines_frame cs st :
  height (mark_mines cs st) = height st ∧ width (mark_mines cs st) = width st ∧
  moves_made (mark_mines cs st) = moves_made st ∧
  safes (mark_mines cs st) = safes st ∧
  mines (mark_mines cs st) = list_to_set cs ∪ mines st ∧
  length (knowledge (mark_mines cs st)) = length (knowledge st).
Proof.
  revert st. induction cs as [|c cs IH]; intros st; simpl.
  - repeat split; set_solver.
  - destruct (IH (mark_mine c st)) as (-> & -> & -> & -> & -> & ->). simpl.
    rewrite length_fmap. repeat split; set_solver.
Qed.

Lemma mark_safes_frame cs st :
  height (mark_safes cs st) = height st ∧ width (mark_safes cs st) = width st ∧
  moves_made (mark_safes cs st) = moves_made st ∧
  mines (mark_safes cs st) = mines st ∧
  safes (mark_safes cs st) = list_to_set cs ∪ safes st ∧
  length (knowledge (mark_safes cs st)) = length (knowledge st).
Proof.
  revert st. induction cs as [|c cs IH]; intros st; simpl.
  - repeat split; set_solver.
  - destruct (IH (mark_safe c st)) as (-> & -> & -> & -> & -> & ->). simpl.
    rewrite length_fmap. repeat split; set_solver.
Qed.

Lemma mark_mine_twice cell st : mark_mine cell (mark_mine cell st) = mark_mine cell st.
Proof.
  apply state_eq; simpl; try done; [set_solver|].
  rewrite <- list_fmap_compose. apply list_fmap_ext. intros _ s _. simpl.
  apply mark_mine_absent. rewrite mark_mine_cells. set_solver.
Qed.

Lemma mark_safe_twice cell st : mark_safe cell (mark_safe cell st) = mark_safe cell st.
Proof.
  apply state_eq; simpl; try done; [set_solver|].
  rewrite <- list_fmap_compose. apply list_fmap_ext. intros _ s _. simpl.
  apply mark_safe_absent. rewrite mark_safe_cells. set_solver.
Qed.

End Marks.

(** * The order in which a set is iterated does not matter

    Python leaves the iteration order of a set open; the model iterates in
    the order of [elements].  Marking the cells of a set gives the same
    state in every order. *)

Section IterationOrder.

Implicit Types (c : Cell) (s : Sentence.t) (st : t) (cs : list Cell).

Lemma sentence_mark_mine_comm c1 c2 s :
  Sentence.mark_mine c1 (Sentence.mark_mine c2 s)
  = Sentence.mark_mine c2 (Sentence.mark_mine c1 s).
Proof.
  destruct (decide (c1 = c2)) as [->|Hne]; [done|].
  apply sentence_eq.
  - rewrite !mark_mine_cells. set_solver.
  - rewrite !mark_mine_count, !mark_mine_cells.
    repeat case_decide; try done; set_solver.
Qed.

Lemma sentence_mark_safe_comm c1 c2 s :
  Sentence.mark_safe c1 (Sentence.mark_safe c2 s)
  = Sentence.mark_safe c2 (Sentence.mark_safe c1 s).
Proof.
  apply sentence_eq; [|done]. rewrite !mark_safe_cells. set_solver.
Qed.

Lemma mark_mine_comm c1 c2 st :
  mark_mine c1 (mark_mine c2 st) = mark_mine c2 (mark_mine c1 st).
Proof.
  apply state_eq; cbn [height width moves_made mines safes knowledge mark_mine];
    try done; [set_solver|].
  rewrite <- !list_fmap_compose. apply list_fmap_ext. intros _ s _.
  apply sentence_mark_mine_comm.
Qed.

Lemma mark_safe_comm c1 c2 st :
  mark_safe c1 (mark_safe c2 st) = mark_safe c2 (mark_safe c1 st).
Proof.
  apply state_eq; cbn [height width moves_made mines safes knowledge mark_safe];
    try done; [set_solver|].
  rewrite <- !list_fmap_compose. apply list_fmap_ext. intros _ s _.
  apply sentence_mark_safe_comm.
Qed.

Lemma mark_mines_Permutation cs cs' st :
  cs ≡ₚ cs' → mark_mines cs st = mark_mines cs' st.
Proof.
  intros H. revert st.
  induction H as [|c l l' _ IH|c1 c2 l|l1 l2 l3 _ IH1 _ IH2]; intros st.
  - done.
  - apply IH.
  - unfold mark_mines. cbn [foldl]. by rewrite mark_mine_comm.
  - by rewrite IH1.
Qed.

Lemma mark_safes_Permutation cs cs' st :
  cs ≡ₚ cs' → mark_safes cs st = mark_safes cs' st.
Proof.
  intros H. revert st.
  induction H as [|c l l' _ IH|c1 c2 l|l1 l2 l3 _ IH1 _ IH2]; intros st.
  - done.
  - apply IH.
  - unfold mark_safes. cbn [foldl]. by rewrite mark_safe_comm.
  - by rewrite IH1.
Qed.

(** Any enumeration without repetition of the set will do. *)
Lemma mark_mines_any_order (X : gset Cell) cs st :
  NoDup cs → list_to_set cs = X → mark_mines cs st = mark_mines (elements X) st.
Proof.
  intros Hnd <-. apply mark_mines_Permutation. symmetry.
  by apply elements_list_to_set.
Qed.

Lemma mark_safes_any_order (X : gset Cell) cs st :
  NoDup cs → list_to_set cs = X → mark_safes cs st = mark_safes (elements X) st.
Proof.
  intros Hnd <-. apply mark_safes_Permutation. symmetry.
  by apply elements_list_to_set.
Qed.

End IterationOrder.

(** * Single operations *)

(** C7: [known_mines] returns exactly the cell set if and only if the count
    equals the number of cells and returns [None] otherwise; [known_safes]
    returns exactly the cell set if and only if the count is 0 and returns
    [None] otherwise. *)
Theorem C7_known_mines_known_safes (s : Sentence.t) :
  (Sentence.known_mines s = Some (Sentence.cells s)
     ↔ Sentence.count s = Z.of_nat (size (Sentence.cells s))) ∧
  (Sentence.known_mines s = None
     ↔ Sentence.count s ≠ Z.of_nat (size (Sentence.cells s))) ∧
  (Sentence.known_safes s = Some (Sentence.cells s) ↔ Sentence.count s = 0%Z) ∧
  (Sentence.known_safes s = None ↔ Sentence.count s ≠ 0%Z).
Proof.
  unfold Sentence.known_mines, Sentence.known_safes.
  destruct (decide (Z.of_nat (size (Sentence.cells s)) = Sentence.count s));
    destruct (decide (Sentence.count s = 0%Z)); naive_solver.
Qed.

(** C8: marking the same cell as a mine twice in a row leaves the whole
    state (mines, safes, moves_made and every sentence) as the first call
    left it, and the same holds for marking a cell safe. *)
Theorem C8_mark_idempotent (st : t) (c : Cell) :
  mark_mine c (mark_mine c st) = mark_mine c st ∧
  mark_safe c (mark_safe c st) = mark_safe c st.
Proof. split; [apply mark_mine_twice | apply mark_safe_twice]. Qed.

(** C9: [make_safe_move] leaves the state unchanged; a returned cell lies in
    [safes] and not in [moves_made], a cell is returned whenever
    [safes - moves_made] is non-empty, and [None] is returned exactly when
    that difference is empty. *)
Theorem C9_make_safe_move (st : t) :
  (make_safe_move st).2 = st ∧
  (∀ c, (make_safe_move st).1 = Some c → c ∈ safes st ∧ c ∉ moves_made st) ∧
  ((make_safe_move st).1 = None ↔ safes st ∖ moves_made st = ∅) ∧
  (safes st ∖ moves_made st ≠ ∅ ↔ ∃ c, (make_safe_move st).1 = Some c).
Proof.
  unfold make_safe_move; simpl.
  set (D := safes st ∖ moves_made st).
  assert (Hhd : ∀ c, head (elements D) = Some c → c ∈ D).
  { intros c Hc. apply elem_of_elements. destruct (elements D); simplify_eq/=. left. }
  assert (Hnil : head (elements D) = None ↔ D = ∅).
  { rewrite head_None, elements_empty_iff. by unfold_leibniz. }
  assert (Hsz : size D = 0 ↔ D = ∅).
  { rewrite size_empty_iff. by unfold_leibniz. }
  split; [done|].
  destruct (decide (0 < size D)) as [Hpos|Hzero].
  - assert (D ≠ ∅) as Hne by (intros HD; apply Hsz in HD; lia).
    split; [|split].
    + intros c Hc. apply Hhd in Hc. set_solver.
    + rewrite Hnil. done.
    + split; [|done]. intros _.
      destruct (head (elements D)) as [c|] eqn:E; [by exists c|].
      exfalso. by apply Hne, Hnil.
  - assert (D = ∅) as HD by (apply Hsz; lia).
    split; [|split].
    + done.
    + done.
    + split; [done|]. by intros [c ?].
Qed.


(** * The neighbor computation *)

Section Neighbors.

Variable st : t.

Lemma get_neighbors_step_self x y acc : get_neighbors_step st x y 0 acc 0 = acc.
Proof. unfold get_neighbors_step. by rewrite bool_decide_eq_true_2. Qed.

Lemma get_neighbors_step_visit x y i j acc :
  (i ≠ 0 ∨ j ≠ 0)%Z →
  get_neighbors_step st x y i acc j = visit st acc ((x + i)%Z, (y + j)%Z).
Proof.
  intros Hij. unfold get_neighbors_step, visit, in_bounds; simpl.
  rewrite bool_decide_eq_false_2 by lia.
  repeat case_bool_decide; repeat case_decide; try done; naive_solver.
Qed.

Lemma get_neighbors_fold cell count :
  get_neighbors st cell count = foldl (visit st) (∅, count) (around cell).
Proof.
  unfold get_neighbors, range_m1_2, around, offsets; simpl.
  rewrite get_neighbors_step_self.
  by rewrite !get_neighbors_step_visit by lia.
Qed.

Lemma foldl_visit (l : list Cell) (X : gset Cell) (n : Z) :
  foldl (visit st) (X, n) l
  = (X ∪ (list_to_set (filter (in_bounds (height st) (width st)) l)
            ∖ safes st ∖ mines st),
     (n - Z.of_nat (length (filter (λ c, c ∈ mines st)
                              (filter (in_bounds (height st) (width st)) l))))%Z).
Proof.
  revert X n. induction l as [|c l IH]; intros X n; simpl.
  - f_equal; [set_solver | lia].
  - unfold visit at 2. rewrite filter_cons.
    destruct (decide (in_bounds (height st) (width st) c)) as [Hb|Hb]; simpl.
    + rewrite IH, filter_cons.
      destruct (decide (c ∈ mines st)) as [Hm|Hm];
        destruct (decide ((c ∉ safes st) ∧ (c ∉ mines st))) as [Hs|Hs]; simpl;
        f_equal; try lia; set_solver.
    + by rewrite IH.
Qed.

Lemma NoDup_around cell : NoDup (around cell).
Proof.
  unfold around, offsets; simpl.
  repeat (apply NoDup_cons; split;
          [rewrite ?elem_of_cons, elem_of_nil; intros H;
           repeat (destruct H as [H|H]); try done; simplify_eq; lia|]).
  apply NoDup_nil_2.
Qed.

Lemma elem_of_around cell c : c ∈ around cell ↔ adjacent cell c.
Proof.
  destruct cell as [x y], c as [a b].
  unfold around, offsets, adjacent; simpl.
  rewrite !elem_of_cons, elem_of_nil. split.
  - intros H. repeat (destruct H as [H|H]); try done; simplify_eq;
      (split; [intros [=]; lia | lia]).
  - intros (Hne & ? & ? & ? & ?).
    assert (a = x - 1 ∨ a = x ∨ a = x + 1)%Z as Ha by lia.
    assert (b = y - 1 ∨ b = y ∨ b = y + 1)%Z as Hb by lia.
    destruct Ha as [-> | [-> | ->]]; destruct Hb as [-> | [-> | ->]];
      try (exfalso; apply Hne; reflexivity);
      repeat (first [left; f_equal; lia | right]).
Qed.

Lemma elem_of_board_neighbors h w cell c :
  c ∈ board_neighbors h w cell ↔ adjacent cell c ∧ in_bounds h w c.
Proof.
  unfold board_neighbors. rewrite elem_of_list_to_set, list_elem_of_filter.
  rewrite elem_of_around. tauto.
Qed.

Lemma get_neighbors_spec cell count :
  get_neighbors st cell count
  = (board_neighbors (height st) (width st) cell ∖ safes st ∖ mines st,
     (count - Z.of_nat (size (board_neighbors (height st) (width st) cell
                                ∩ mines st)))%Z).
Proof.
  rewrite get_neighbors_fold, foldl_visit. unfold board_neighbors.
  set (N := filter (in_bounds (height st) (width st)) (around cell)).
  assert (NoDup N) as HN by apply NoDup_filter, NoDup_around.
  f_equal; [set_solver|]. do 2 f_equal.
  rewrite <- (size_list_to_set (C := gset Cell)) by by apply NoDup_filter.
  f_equal. apply set_eq. intros c.
  rewrite elem_of_list_to_set, list_elem_of_filter. set_solver.
Qed.

Lemma size_board_neighbors h w cell : size (board_neighbors h w cell) ≤ 8.
Proof.
  unfold board_neighbors.
  rewrite size_list_to_set by apply NoDup_filter, NoDup_around.
  etrans; [apply length_filter|]. done.
Qed.

End Neighbors.

(** * The final loop keeps every sentence *)

Section Cleanup.

Implicit Types (st : t) (i : nat).

Lemma cleanup_step_length acc i :
  length (knowledge (cleanup_step acc i).1) = length (knowledge acc.1).
Proof.
  unfold cleanup_step; simpl.
  set (st1 := match knowledge acc.1 !! i with
              | Some sentence =>
                  if truthy (Sentence.known_mines sentence)
                  then mark_mines (iterable (Sentence.known_mines sentence)) acc.1
                  else acc.1
              | None => acc.1
              end).
  assert (length (knowledge st1) = length (knowledge acc.1)) as <-.
  { unfold st1. destruct (knowledge acc.1 !! i); [|done].
    destruct (truthy _); [|done]. apply mark_mines_frame. }
  destruct (knowledge st1 !! i); [|done].
  destruct (truthy _); [|done]. apply mark_safes_frame.
Qed.

Lemma foldl_cleanup_step (l : list nat) acc :
  (foldl cleanup_step acc l).2 = acc.2 ++ l ∧
  length (knowledge (foldl cleanup_step acc l).1) = length (knowledge acc.1).
Proof.
  revert acc. induction l as [|i l IH]; intros acc; simpl.
  - by rewrite app_nil_r.
  - destruct (IH (cleanup_step acc i)) as [-> ->].
    rewrite cleanup_step_length. split; [|done].
    unfold cleanup_step; simpl. by rewrite <- app_assoc.
Qed.

Lemma omap_lookup_seq_app {A} (k2 k1 : list A) :
  omap (λ i, (k1 ++ k2) !! i) (seq (length k1) (length k2)) = k2.
Proof.
  revert k1. induction k2 as [|a k2 IH]; intros k1; simpl; [done|].
  rewrite list_lookup_middle by done. f_equal.
  specialize (IH (k1 ++ [a])).
  rewrite length_app, Nat.add_1_r, <- app_assoc in IH. done.
Qed.

Lemma omap_lookup_seq {A} (k : list A) :
  omap (λ i, k !! i) (seq 0 (length k)) = k.
Proof. apply (omap_lookup_seq_app k []). Qed.

(** The list that [final_cleanup] installs is the whole list it swept:
    no sentence is left out. *)
Lemma final_cleanup_fold st :
  final_cleanup st
  = (foldl cleanup_step (st, []) (seq 0 (length (knowledge st)))).1.
Proof.
  unfold final_cleanup.
  pose proof (foldl_cleanup_step (seq 0 (length (knowledge st))) (st, []))
    as [Hfin Hlen].
  set (r := foldl cleanup_step (st, []) (seq 0 (length (knowledge st)))) in *.
  simpl in *. rewrite Hfin, <- Hlen, omap_lookup_seq. apply set_knowledge_id.
Qed.

End Cleanup.

(** * Runs of markings *)

Section Reach.

Context (Pm Ps : Cell → Prop).
Implicit Types (st : t) (c : Cell) (cs : list Cell).

Lemma reach_trans st1 st2 st3 :
  reach Pm Ps st1 st2 → reach Pm Ps st2 st3 → reach Pm Ps st1 st3.
Proof.
  induction 1 as [|c st st' Hc _ IH|c st st' Hc _ IH]; intros H23; [done|..].
  - eapply reach_mine; eauto.
  - eapply reach_safe; eauto.
Qed.

Lemma reach_mark_mines cs st :
  Forall Pm cs → reach Pm Ps st (mark_mines cs st).
Proof.
  intros H. revert st. induction H as [|c cs Hc _ IH]; intros st; simpl.
  - constructor.
  - eapply reach_mine; [done|]. apply IH.
Qed.

Lemma reach_mark_safes cs st :
  Forall Ps cs → reach Pm Ps st (mark_safes cs st).
Proof.
  intros H. revert st. induction H as [|c cs Hc _ IH]; intros st; simpl.
  - constructor.
  - eapply reach_safe; [done|]. apply IH.
Qed.

Lemma reach_frame st st' :
  reach Pm Ps st st' →
  height st' = height st ∧ width st' = width st ∧
  moves_made st' = moves_made st ∧
  mines st ⊆ mines st' ∧ safes st ⊆ safes st' ∧
  length (knowledge st') = length (knowledge st).
Proof.
  induction 1 as [|c st st' Hc _ IH|c st st' Hc _ IH].
  - done.
  - destruct IH as (-> & -> & -> & ? & ? & ->). simpl in *.
    rewrite length_fmap. split_and!; try done; set_solver.
  - destruct IH as (-> & -> & -> & ? & ? & ->). simpl in *.
    rewrite length_fmap. split_and!; try done; set_solver.
Qed.

(** A property of states that every admissible marking keeps is kept by
    every run. *)
Lemma reach_ind_inv (Q : t → Prop) st st' :
  (∀ c st, Pm c → Q st → Q (mark_mine c st)) →
  (∀ c st, Ps c → Q st → Q (mark_safe c st)) →
  reach Pm Ps st st' → Q st → Q st'.
Proof. intros Hm Hs. induction 1; eauto. Qed.

End Reach.

Lemma reach_weaken (Pm Ps Pm' Ps' : Cell → Prop) st st' :
  (∀ c, Pm c → Pm' c) → (∀ c, Ps c → Ps' c) →
  reach Pm Ps st st' → reach Pm' Ps' st st'.
Proof.
  intros Hm Hs. induction 1 as [|c st st' Hc _ IH|c st st' Hc _ IH].
  - constructor.
  - eapply reach_mine; eauto.
  - eapply reach_safe; eauto.
Qed.

(** * The phases of [add_knowledge] as runs of markings *)

Section PhasesAny.

Implicit Types (st : t) (acc : t * list Sentence.t).

Local Abbreviation reach_any := (reach any_cell any_cell).

Lemma Forall_any_cell (cs : list Cell) : Forall any_cell cs.
Proof. by apply Forall_forall. Qed.

Lemma resolve_new_reach_any newcells count st :
  reach_any st (resolve_new newcells count st).
Proof.
  unfold resolve_new.
  set (st1 := if decide (count = 0%Z) then _ else st).
  assert (reach_any st st1) as H1.
  { unfold st1. case_decide; [|constructor].
    apply reach_mark_safes, Forall_any_cell. }
  eapply reach_trans; [apply H1|].
  case_decide; [|constructor]. apply reach_mark_mines, Forall_any_cell.
Qed.

Lemma conclude_reach_any setdiff cntdiff acc :
  reach_any acc.1 (conclude setdiff cntdiff acc).1.
Proof.
  unfold conclude. repeat case_decide; simpl.
  - apply reach_mark_mines, Forall_any_cell.
  - apply reach_mark_safes, Forall_any_cell.
  - constructor.
Qed.

Lemma infer_step_reach_any newcells count newsentence acc i :
  reach_any acc.1 (infer_step newcells count newsentence acc i).1.
Proof.
  unfold infer_step.
  destruct (knowledge acc.1 !! i) as [sentence|]; [|constructor].
  destruct (knowledge acc.1 !! newsentence) as [new|]; [|constructor].
  destruct (Sentence.eqb sentence new); [constructor|].
  set (acc1 := if decide (Sentence.cells sentence ⊆ newcells) then _ else acc).
  assert (reach_any acc.1 acc1.1) as H1.
  { unfold acc1. case_decide; [apply conclude_reach_any | constructor]. }
  eapply reach_trans; [apply H1|].
  destruct (knowledge acc1.1 !! i) as [sentence'|]; [|constructor].
  case_decide; [apply conclude_reach_any | constructor].
Qed.

Lemma foldl_infer_step_reach_any newcells count newsentence (l : list nat) acc :
  reach_any acc.1 (foldl (infer_step newcells count newsentence) acc l).1.
Proof.
  revert acc. induction l as [|i l IH]; intros acc; simpl; [constructor|].
  eapply reach_trans; [apply infer_step_reach_any | apply IH].
Qed.

Lemma cleanup_step_reach_any (acc : t * list nat) i :
  reach_any acc.1 (cleanup_step acc i).1.
Proof.
  unfold cleanup_step; simpl.
  set (st1 := match knowledge acc.1 !! i with Some _ => _ | None => acc.1 end).
  assert (reach_any acc.1 st1) as H1.
  { unfold st1. destruct (knowledge acc.1 !! i); [|constructor].
    destruct (truthy _); [|constructor]. apply reach_mark_mines, Forall_any_cell. }
  eapply reach_trans; [apply H1|].
  destruct (knowledge st1 !! i); [|constructor].
  destruct (truthy _); [|constructor]. apply reach_mark_safes, Forall_any_cell.
Qed.

Lemma foldl_cleanup_step_reach_any (l : list nat) (acc : t * list nat) :
  reach_any acc.1 (foldl cleanup_step acc l).1.
Proof.
  revert acc. induction l as [|i l IH]; intros acc; simpl; [constructor|].
  eapply reach_trans; [apply cleanup_step_reach_any | apply IH].
Qed.

Lemma final_cleanup_reach_any st : reach_any st (final_cleanup st).
Proof. rewrite final_cleanup_fold. apply (foldl_cleanup_step_reach_any _ (st, [])). Qed.

End PhasesAny.

(** * Removing duplicates *)

Section Unique.

Implicit Types (s : Sentence.t) (l u : list Sentence.t).

Lemma existsb_eqb s u : existsb (Sentence.eqb s) u = true ↔ s ∈ u.
Proof.
  rewrite existsb_exists. split.
  - intros (x & Hx & ->%eqb_eq). by apply list_elem_of_In.
  - intros H. exists s. split; [by apply list_elem_of_In | by apply eqb_eq].
Qed.

Lemma foldl_unique_step_elem_of l u s :
  s ∈ foldl unique_step u l ↔ s ∈ u ∨ s ∈ l.
Proof.
  revert u. induction l as [|a l IH]; intros u; simpl.
  - rewrite elem_of_nil. tauto.
  - rewrite IH, elem_of_cons. unfold unique_step.
    destruct (existsb (Sentence.eqb a) u) eqn:E.
    + apply existsb_eqb in E. naive_solver.
    + rewrite elem_of_app, list_elem_of_singleton. tauto.
Qed.

Lemma foldl_unique_step_NoDup l u : NoDup u → NoDup (foldl unique_step u l).
Proof.
  revert u. induction l as [|a l IH]; intros u Hu; simpl; [done|].
  apply IH. unfold unique_step.
  destruct (existsb (Sentence.eqb a) u) eqn:E; [done|].
  apply NoDup_app. split_and!; [done| |apply NoDup_singleton].
  intros x Hx ->%list_elem_of_singleton.
  apply existsb_eqb in Hx. congruence.
Qed.

Lemma remove_duplicates_elem_of st s :
  s ∈ knowledge (remove_duplicates st) ↔ s ∈ knowledge st.
Proof.
  unfold remove_duplicates; simpl. rewrite foldl_unique_step_elem_of, elem_of_nil.
  tauto.
Qed.

Lemma remove_duplicates_NoDup st : NoDup (knowledge (remove_duplicates st)).
Proof. apply foldl_unique_step_NoDup, NoDup_nil_2. Qed.

End Unique.

(** * The new sentence of a call *)

Section NewSentence.

Implicit Types (st : t) (i : nat) (s : Sentence.t).

(** The sentence at a position whose cells are the cells of [N] that are in
    neither [safes] nor [mines] keeps that form through every marking. *)
Lemma reach_undetermined (N : gset Cell) i st st' :
  reach any_cell any_cell st st' →
  (∃ s, knowledge st !! i = Some s ∧
        Sentence.cells s = N ∖ safes st ∖ mines st) →
  ∃ s, knowledge st' !! i = Some s ∧
       Sentence.cells s = N ∖ safes st' ∖ mines st'.
Proof.
  intros Hr. eapply (reach_ind_inv _ _ (λ st0, ∃ s, knowledge st0 !! i = Some s ∧
    Sentence.cells s = N ∖ safes st0 ∖ mines st0)); [| |apply Hr].
  - intros c st0 _ (s & Hi & Hc). exists (Sentence.mark_mine c s). split.
    + unfold mark_mine. cbn [knowledge]. by rewrite list_lookup_fmap, Hi.
    + unfold mark_mine. cbn [mines safes]. rewrite mark_mine_cells, Hc. set_solver.
  - intros c st0 _ (s & Hi & Hc). exists (Sentence.mark_safe c s). split.
    + unfold mark_safe. cbn [knowledge]. by rewrite list_lookup_fmap, Hi.
    + unfold mark_safe. cbn [mines safes]. rewrite mark_safe_cells, Hc. set_solver.
Qed.

(** [extended] written out from the state with the new sentence. *)
Lemma extended_unfold cell count st :
  let st1 := record_move cell st in
  let N := board_neighbors (height st) (width st) cell in
  let newcells := N ∖ safes st1 ∖ mines st1 in
  let cnt := (count - Z.of_nat (size (N ∩ mines st1)))%Z in
  extended cell count st
  = (let di := draw_inferences newcells cnt (length (knowledge st))
                 (resolve_new newcells cnt (append_sentence newcells cnt st1)) in
     set_knowledge (knowledge di.1 ++ di.2) di.1).
Proof.
  intros st1 N newcells cnt. unfold extended, with_new_sentence. fold st1.
  rewrite get_neighbors_spec. cbn [fst snd].
  assert (length (knowledge st1) = length (knowledge st)) as ->.
  { unfold st1, record_move, mark_safe. cbn [knowledge]. apply length_fmap. }
  done.
Qed.

Lemma extended_new_sentence cell count st :
  let N := board_neighbors (height st) (width st) cell in
  ∃ s, knowledge (extended cell count st) !! length (knowledge st) = Some s ∧
       Sentence.cells s
       = N ∖ safes (extended cell count st) ∖ mines (extended cell count st).
Proof.
  intros N. rewrite extended_unfold. fold N.
  set (st1 := record_move cell st).
  set (newcells := N ∖ safes st1 ∖ mines st1).
  set (cnt := (count - Z.of_nat (size (N ∩ mines st1)))%Z).
  set (st2 := append_sentence newcells cnt st1).
  set (st3 := resolve_new newcells cnt st2).
  assert (length (knowledge st1) = length (knowledge st)) as Hlen.
  { unfold st1, record_move, mark_safe. cbn [knowledge]. apply length_fmap. }
  assert (∃ s, knowledge st2 !! length (knowledge st) = Some s ∧
               Sentence.cells s = N ∖ safes st2 ∖ mines st2) as H2.
  { exists (Sentence.mk newcells cnt). split; [|done].
    unfold st2, append_sentence. cbn [knowledge set_knowledge].
    rewrite <- Hlen. by apply list_lookup_middle. }
  assert (reach any_cell any_cell st2 st3) as H23
    by apply resolve_new_reach_any.
  pose proof (foldl_infer_step_reach_any newcells cnt (length (knowledge st))
                (seq 0 (length (knowledge st3))) (st3, [])) as H34.
  cbn [fst] in H34. fold (draw_inferences newcells cnt (length (knowledge st)) st3) in H34.
  set (di := draw_inferences newcells cnt (length (knowledge st)) st3) in *.
  clearbody di.
  destruct (reach_undetermined N _ _ _ (reach_trans _ _ _ _ _ H23 H34) H2)
    as (s & Hs & Hc).
  exists s. cbn [knowledge set_knowledge mines safes]. split; [|done].
  by apply lookup_app_l_Some.
Qed.

Lemma add_knowledge_new_sentence cell count st :
  let N := board_neighbors (height st) (width st) cell in
  ∃ s, s ∈ knowledge (add_knowledge cell count st) ∧
       Sentence.cells s
       = N ∖ safes (add_knowledge cell count st) ∖ mines (add_knowledge cell count st).
Proof.
  intros N. destruct (extended_new_sentence cell count st) as (s & Hs & Hc).
  fold N in Hc. unfold add_knowledge.
  set (st4 := extended cell count st) in *. clearbody st4.
  apply list_elem_of_lookup_2 in Hs.
  apply (remove_duplicates_elem_of st4) in Hs.
  apply list_elem_of_lookup in Hs as [i Hi].
  destruct (reach_undetermined N i _ _ (final_cleanup_reach_any (remove_duplicates st4)))
    as (s' & Hs' & Hc'); [by exists s|].
  exists s'. split; [|done]. by apply list_elem_of_lookup_2 in Hs'.
Qed.

End NewSentence.

(** C6: the sentence that [add_knowledge] creates and appends has as cells
    exactly the in-bounds neighbors of [cell] (at most 8, never [cell]
    itself) that are neither in [safes] nor in [mines] at that point, that
    is after [cell] was marked safe, and as count the given count minus the
    number of in-bounds neighbors that are in [mines] at that point.  The
    call goes on from the list with this sentence at its end: it draws its
    conclusions from it, removes duplicates and runs the final loop.  The
    sentence stays in the list, less the cells that the call marks: before
    duplicates are removed it is at the position where it was appended, and
    when the call returns the list holds a sentence whose cells are the
    in-bounds neighbors that are then neither in [safes] nor in [mines]. *)
Theorem C6_new_sentence (st : t) (cell : Cell) (count : Z) :
  let st1 := record_move cell st in
  let N := board_neighbors (height st) (width st) cell in
  knowledge (with_new_sentence cell count st).1
  = knowledge st1
    ++ [Sentence.mk (N ∖ safes st1 ∖ mines st1)
                    (count - Z.of_nat (size (N ∩ mines st1)))%Z] ∧
  (with_new_sentence cell count st).2
  = (N ∖ safes st1 ∖ mines st1, (count - Z.of_nat (size (N ∩ mines st1)))%Z) ∧
  safes st1 = {[cell]} ∪ safes st ∧ mines st1 = mines st ∧
  (∀ c, c ∈ N ↔ adjacent cell c ∧ in_bounds (height st) (width st) c) ∧
  (cell ∉ N) ∧ size N ≤ 8 ∧
  add_knowledge cell count st
  = final_cleanup (remove_duplicates (extended cell count st)) ∧
  extended cell count st
  = (let newcells := N ∖ safes st1 ∖ mines st1 in
     let cnt := (count - Z.of_nat (size (N ∩ mines st1)))%Z in
     let di := draw_inferences newcells cnt (length (knowledge st))
                 (resolve_new newcells cnt (append_sentence newcells cnt st1)) in
     set_knowledge (knowledge di.1 ++ di.2) di.1) ∧
  (∃ s, knowledge (extended cell count st) !! length (knowledge st) = Some s ∧
        Sentence.cells s
        = N ∖ safes (extended cell count st) ∖ mines (extended cell count st)) ∧
  (∃ s, s ∈ knowledge (add_knowledge cell count st) ∧
        Sentence.cells s
        = N ∖ safes (add_knowledge cell count st)
            ∖ mines (add_knowledge cell count st)).
Proof.
  intros st1 N.
  assert (knowledge (with_new_sentence cell count st).1
          = knowledge st1
            ++ [Sentence.mk (N ∖ safes st1 ∖ mines st1)
                  (count - Z.of_nat (size (N ∩ mines st1)))%Z] ∧
          (with_new_sentence cell count st).2
          = (N ∖ safes st1 ∖ mines st1,
             (count - Z.of_nat (size (N ∩ mines st1)))%Z)) as [Hk Hnc].
  { unfold with_new_sentence. fold st1. rewrite get_neighbors_spec. done. }
  split_and!; try done.
  - intros c. apply elem_of_board_neighbors.
  - intros [[Hne _] _]%elem_of_board_neighbors. done.
  - apply size_board_neighbors.
  - apply extended_unfold.
  - apply extended_new_sentence.
  - apply add_knowledge_new_sentence.
Qed.

(** * The empty sentence *)

Section EmptySentence.

Implicit Types (st : t).

Lemma mark_mine_empty c : Sentence.mark_mine c empty_sentence = empty_sentence.
Proof. apply mark_mine_absent. set_solver. Qed.

Lemma mark_safe_empty c : Sentence.mark_safe c empty_sentence = empty_sentence.
Proof. apply mark_safe_absent. set_solver. Qed.

Lemma empty_sentence_reach st st' :
  reach any_cell any_cell st st' →
  empty_sentence ∈ knowledge st → empty_sentence ∈ knowledge st'.
Proof.
  intros Hr. eapply (reach_ind_inv _ _ (λ st, empty_sentence ∈ knowledge st));
    [| |apply Hr].
  - intros c st0 _ H. simpl. apply list_elem_of_fmap. exists empty_sentence.
    split; [|done]. symmetry. apply mark_mine_empty.
  - intros c st0 _ H. simpl. apply list_elem_of_fmap. exists empty_sentence.
    split; [|done]. symmetry. apply mark_safe_empty.
Qed.

Lemma empty_sentence_after_new cell count st :
  empty_sentence ∈ knowledge (with_new_sentence cell count st).1 →
  empty_sentence ∈ knowledge (add_knowledge cell count st).
Proof.
  intros H. unfold add_knowledge.
  eapply empty_sentence_reach; [apply final_cleanup_reach_any|].
  apply remove_duplicates_elem_of.
  unfold extended. cbn [knowledge set_knowledge]. apply elem_of_app. left.
  eapply empty_sentence_reach; [apply foldl_infer_step_reach_any|]. cbn [fst].
  eapply empty_sentence_reach; [apply resolve_new_reach_any|]. done.
Qed.

Lemma empty_sentence_record_move cell st :
  empty_sentence ∈ knowledge st → empty_sentence ∈ knowledge (record_move cell st).
Proof.
  intros H. unfold record_move, mark_safe. cbn [knowledge].
  apply list_elem_of_fmap. exists empty_sentence.
  split; [|done]. symmetry. apply mark_safe_empty.
Qed.

Lemma empty_sentence_add_knowledge cell count st :
  empty_sentence ∈ knowledge st →
  empty_sentence ∈ knowledge (add_knowledge cell count st).
Proof.
  intros H. apply empty_sentence_after_new.
  unfold with_new_sentence, append_sentence. cbn [fst knowledge set_knowledge].
  apply elem_of_app. left. by apply (empty_sentence_record_move cell st).
Qed.

Lemma empty_sentence_exec c st :
  empty_sentence ∈ knowledge st → empty_sentence ∈ knowledge (exec st c).
Proof.
  intros H. destruct c as [cell count|cell|cell]; cbn [exec];
    unfold mark_mine, mark_safe; cbn [knowledge].
  - by apply empty_sentence_add_knowledge.
  - apply list_elem_of_fmap. exists empty_sentence.
    split; [|done]. symmetry. apply mark_mine_empty.
  - apply list_elem_of_fmap. exists empty_sentence.
    split; [|done]. symmetry. apply mark_safe_empty.
Qed.

Lemma empty_sentence_run calls st :
  empty_sentence ∈ knowledge st → empty_sentence ∈ knowledge (run calls st).
Proof.
  revert st. induction calls as [|c calls IH]; intros st H; simpl; [done|].
  apply IH. by apply empty_sentence_exec.
Qed.

End EmptySentence.

(** C10: every [add_knowledge] call appends the sentence built from the
    undetermined neighbors, also when there is none; the empty sentence (no
    cells, count 0) is then in the knowledge list when the call returns, and
    once it is in the list it stays there through every later operation.
    For it [known_mines] and [known_safes] both return the empty set, which
    the final loop reads as false. *)
Theorem C10_empty_sentence_persists (st : t) (cell : Cell) (count : Z) :
  (let nc := get_neighbors (record_move cell st) cell count in
   knowledge (with_new_sentence cell count st).1
   = knowledge (record_move cell st) ++ [Sentence.mk nc.1 nc.2]) ∧
  Sentence.known_mines empty_sentence = Some ∅ ∧
  Sentence.known_safes empty_sentence = Some ∅ ∧
  truthy (Sentence.known_mines empty_sentence) = false ∧
  truthy (Sentence.known_safes empty_sentence) = false ∧
  (get_neighbors (record_move cell st) cell count = (∅, 0%Z) →
   empty_sentence ∈ knowledge (add_knowledge cell count st)) ∧
  (∀ calls, empty_sentence ∈ knowledge st →
            empty_sentence ∈ knowledge (run calls st)).
Proof.
  split_and!.
  - done.
  - compute_done.
  - compute_done.
  - compute_done.
  - compute_done.
  - intros H. apply empty_sentence_after_new.
    unfold with_new_sentence, append_sentence. rewrite H.
    cbn [fst snd knowledge set_knowledge]. apply elem_of_app. right. by apply list_elem_of_singleton.
  - intros calls. apply empty_sentence_run.
Qed.

(** * The final loop on a board of one row *)

(** C1: on the board of one row, the second clue leaves the sentence
    {(0,0)} = 1 in the list with [known_mines] non-empty when the final loop
    starts; the loop marks (0,0) as a mine and keeps the sentence, which
    is in the list, emptied, when the call returns. *)
Theorem C1_resolved_sentence_kept :
  let before := remove_duplicates (extended (0, 2)%Z 1 row5) in
  let after := add_knowledge (0, 2)%Z 1 row5 in
  knowledge before = [Sentence.mk {[(0, 0)%Z]} 1; Sentence.mk ∅ 0] ∧
  truthy (Sentence.known_mines (Sentence.mk {[(0, 0)%Z]} 1)) = true ∧
  ((0, 0)%Z ∉ mines before) ∧ ((0, 0)%Z ∈ mines after) ∧
  knowledge after = [Sentence.mk ∅ 0; Sentence.mk ∅ 0].
Proof.
  split_and!; compute_done.
Qed.

(** * Duplicates and the final loop *)

(** The third truthful clue, 2 at (1,1), leaves the sentence
    {(0,0), (1,0)} = 1 twice in the list: the two entries differ when
    duplicates are removed and become equal when the final loop marks (0,1)
    as a mine. *)
Example board23_knowledge :
  knowledge (remove_duplicates (extended (1, 1)%Z 2 board23))
  = [Sentence.mk {[(0, 1)%Z]} 1;
     Sentence.mk {[(0, 0)%Z; (0, 1)%Z; (1, 0)%Z]} 2;
     Sentence.mk {[(0, 0)%Z; (1, 0)%Z]} 1] ∧
  knowledge (add_knowledge (1, 1)%Z 2 board23)
  = [Sentence.mk ∅ 0;
     Sentence.mk {[(0, 0)%Z; (1, 0)%Z]} 1;
     Sentence.mk {[(0, 0)%Z; (1, 0)%Z]} 1].
Proof. split; compute_done. Qed.

(** The list returned on the 2 by 3 board holds two equal sentences. *)
Lemma C2_duplicates_after_call :
  ¬ NoDup (knowledge (add_knowledge (1, 1)%Z 2 board23)).
Proof. compute_done. Qed.

(** C2, amended: when the "Remove duplicates" block of [add_knowledge] has
    run, that is before the final loop, no two entries of the knowledge list
    are equal as sentences, and the list holds the same sentences as before
    the block; the call returns what the final loop makes of that list. *)
Theorem C2_no_duplicates_before_final_loop (st : t) (cell : Cell) (count : Z) :
  let unique := knowledge (remove_duplicates (extended cell count st)) in
  (∀ i j s1 s2, unique !! i = Some s1 → unique !! j = Some s2 →
                Sentence.eqb s1 s2 = true → i = j) ∧
  (∀ s, s ∈ unique ↔ s ∈ knowledge (extended cell count st)) ∧
  add_knowledge cell count st
  = final_cleanup (remove_duplicates (extended cell count st)).
Proof.
  intros unique. split_and!.
  - intros i j s1 s2 Hi Hj ->%eqb_eq.
    eapply NoDup_lookup; [apply remove_duplicates_NoDup|done..].
  - intros s. apply remove_duplicates_elem_of.
  - done.
Qed.

(** * Agreement with the ground truth *)

Section Soundness.

Context (M : gset Cell).
Implicit Types (st : t) (s : Sentence.t) (c : Cell) (X : gset Cell).

Local Abbreviation reachM := (reach (λ c, c ∈ M) (λ c, c ∉ M)).

Lemma size_inter_full X : size (X ∩ M) = size X → X ⊆ M.
Proof.
  intros H. assert (X ∩ M = X) as HX.
  { apply set_subseteq_size_eq; [set_solver | lia]. }
  set_solver.
Qed.

Lemma size_inter_none X : size (X ∩ M) = 0 → X ## M.
Proof. intros H%size_empty_iff. set_solver. Qed.

Lemma size_inter_difference X Y :
  Y ⊆ X → size ((X ∖ Y) ∩ M) = size (X ∩ M) - size (Y ∩ M).
Proof.
  intros HYX. rewrite <- size_difference by set_solver.
  f_equal. set_solver.
Qed.

Lemma size_inter_le X Y : Y ⊆ X → size (Y ∩ M) ≤ size (X ∩ M).
Proof. intros H. apply subseteq_size. set_solver. Qed.

Lemma sound_mark_mine c s :
  c ∈ M → sound_sentence M s → sound_sentence M (Sentence.mark_mine c s).
Proof.
  unfold sound_sentence. intros Hc Hs.
  rewrite mark_mine_cells, mark_mine_count.
  destruct (decide (c ∈ Sentence.cells s)) as [Hin|Hin].
  - rewrite size_inter_difference by set_solver.
    replace ({[c]} ∩ M) with ({[c]} : gset Cell) by set_solver.
    rewrite size_singleton.
    assert (size ({[c]} : gset Cell) ≤ size (Sentence.cells s ∩ M)) as Hle.
    { apply subseteq_size. set_solver. }
    rewrite size_singleton in Hle. rewrite <- Hs. lia.
  - rewrite <- Hs. do 2 f_equal. set_solver.
Qed.

Lemma sound_mark_safe c s :
  c ∉ M → sound_sentence M s → sound_sentence M (Sentence.mark_safe c s).
Proof.
  unfold sound_sentence. intros Hc Hs.
  rewrite mark_safe_cells, mark_safe_count, <- Hs. do 2 f_equal. set_solver.
Qed.

Lemma Sound_mark_mine c st : c ∈ M → Sound M st → Sound M (mark_mine c st).
Proof.
  intros Hc (Hm & Hs & Hk). unfold Sound, mark_mine. cbn [mines safes knowledge].
  split_and!; [set_solver|done|].
  apply Forall_fmap. eapply Forall_impl; [apply Hk|].
  intros s. by apply sound_mark_mine.
Qed.

Lemma Sound_mark_safe c st : c ∉ M → Sound M st → Sound M (mark_safe c st).
Proof.
  intros Hc (Hm & Hs & Hk). unfold Sound, mark_safe. cbn [mines safes knowledge].
  split_and!; [done|set_solver|].
  apply Forall_fmap. eapply Forall_impl; [apply Hk|].
  intros s. by apply sound_mark_safe.
Qed.

Lemma Sound_reach st st' : reachM st st' → Sound M st → Sound M st'.
Proof.
  intros Hr. eapply (reach_ind_inv _ _ (Sound M)); [| |apply Hr].
  - intros c st0. apply Sound_mark_mine.
  - intros c st0. apply Sound_mark_safe.
Qed.

(** A sound sentence whose count is its size holds only mines; one whose
    count is 0 holds none. *)
Lemma sound_all_mines X (n : Z) :
  sound_sentence M (Sentence.mk X n) → Z.of_nat (size X) = n →
  Forall (λ c, c ∈ M) (elements X).
Proof.
  unfold sound_sentence; cbn [Sentence.cells Sentence.count]. intros Hs Hn.
  apply Forall_forall. intros c Hc%elem_of_elements.
  apply (size_inter_full X); [lia|done].
Qed.

Lemma sound_all_safes X (n : Z) :
  sound_sentence M (Sentence.mk X n) → n = 0%Z →
  Forall (λ c, c ∉ M) (elements X).
Proof.
  unfold sound_sentence; cbn [Sentence.cells Sentence.count]. intros Hs Hn.
  apply Forall_forall. intros c Hc%elem_of_elements.
  assert (X ## M) by (apply size_inter_none; lia). set_solver.
Qed.

Lemma resolve_new_reach newcells count st :
  sound_sentence M (Sentence.mk newcells count) →
  reachM st (resolve_new newcells count st).
Proof.
  intros Hs. unfold resolve_new.
  set (st1 := if decide (count = 0%Z) then _ else st).
  assert (reachM st st1) as H1.
  { unfold st1. case_decide; [|constructor].
    eapply reach_mark_safes, sound_all_safes; eauto. }
  eapply reach_trans; [apply H1|].
  case_decide; [|constructor]. eapply reach_mark_mines, sound_all_mines; eauto.
Qed.

Lemma conclude_sound setdiff cntdiff (acc : t * list Sentence.t) :
  sound_sentence M (Sentence.mk setdiff cntdiff) →
  Forall (sound_sentence M) acc.2 →
  reachM acc.1 (conclude setdiff cntdiff acc).1 ∧
  Forall (sound_sentence M) (conclude setdiff cntdiff acc).2.
Proof.
  intros Hs Hacc. unfold conclude. repeat case_decide; cbn [fst snd].
  - split; [|done]. eapply reach_mark_mines, sound_all_mines; eauto.
  - split; [|done]. eapply reach_mark_safes, sound_all_safes; eauto.
  - split; [constructor|]. apply Forall_app. split; [done|].
    by apply Forall_singleton.
Qed.

Lemma sound_difference X Y (n m : Z) :
  Y ⊆ X → sound_sentence M (Sentence.mk X n) → sound_sentence M (Sentence.mk Y m) →
  sound_sentence M (Sentence.mk (X ∖ Y) (n - m)).
Proof.
  unfold sound_sentence; cbn [Sentence.cells Sentence.count]. intros HYX <- <-.
  rewrite size_inter_difference by done.
  pose proof (size_inter_le X Y HYX). lia.
Qed.

Lemma sound_sentence_eta s :
  sound_sentence M s →
  sound_sentence M (Sentence.mk (Sentence.cells s) (Sentence.count s)).
Proof. by destruct s. Qed.

Lemma Sound_lookup st i s :
  Sound M st → knowledge st !! i = Some s → sound_sentence M s.
Proof. intros (_ & _ & Hk) Hi. eapply Forall_lookup_1; eauto. Qed.

Lemma infer_step_sound newcells count newsentence (acc : t * list Sentence.t) i :
  sound_sentence M (Sentence.mk newcells count) →
  Sound M acc.1 → Forall (sound_sentence M) acc.2 →
  reachM acc.1 (infer_step newcells count newsentence acc i).1 ∧
  Forall (sound_sentence M) (infer_step newcells count newsentence acc i).2.
Proof.
  intros Hnew Hst Hinf. unfold infer_step.
  destruct (knowledge acc.1 !! i) as [sentence|] eqn:Hi; [|split; [constructor|done]].
  destruct (knowledge acc.1 !! newsentence) as [new|]; [|split; [constructor|done]].
  destruct (Sentence.eqb sentence new); [split; [constructor|done]|].
  set (acc1 := if decide (Sentence.cells sentence ⊆ newcells) then _ else acc).
  assert (reachM acc.1 acc1.1 ∧ Forall (sound_sentence M) acc1.2) as [Hr1 Hinf1].
  { unfold acc1. case_decide; [|split; [constructor|done]].
    apply conclude_sound; [|done].
    apply sound_difference; [done..|].
    apply sound_sentence_eta. eapply Sound_lookup; eauto. }
  assert (Sound M acc1.1) as Hst1 by (eapply Sound_reach; eauto).
  clearbody acc1.
  destruct (knowledge acc1.1 !! i) as [sentence'|] eqn:Hi'; [|done].
  case_decide; [|done].
  destruct (conclude_sound (Sentence.cells sentence' ∖ newcells)
              (Sentence.count sentence' - count) acc1) as [Hr2 Hinf2]; [|done|].
  { apply sound_difference; [done| |done].
    apply sound_sentence_eta. eapply Sound_lookup; eauto. }
  split; [|done]. eapply reach_trans; eauto.
Qed.

Lemma foldl_infer_step_sound newcells count newsentence (l : list nat)
    (acc : t * list Sentence.t) :
  sound_sentence M (Sentence.mk newcells count) →
  Sound M acc.1 → Forall (sound_sentence M) acc.2 →
  reachM acc.1 (foldl (infer_step newcells count newsentence) acc l).1 ∧
  Forall (sound_sentence M) (foldl (infer_step newcells count newsentence) acc l).2.
Proof.
  intros Hnew. revert acc. induction l as [|i l IH]; intros acc Hst Hinf; cbn [foldl].
  - split; [constructor|done].
  - destruct (infer_step_sound newcells count newsentence acc i) as [Hr1 Hinf1];
      [done..|].
    destruct (IH (infer_step newcells count newsentence acc i)) as [Hr2 Hinf2];
      [eapply Sound_reach; eauto|done|].
    split; [|done]. eapply reach_trans; eauto.
Qed.

Lemma known_mines_sound s :
  sound_sentence M s → Forall (λ c, c ∈ M) (iterable (Sentence.known_mines s)).
Proof.
  intros Hs%sound_sentence_eta. unfold Sentence.known_mines.
  case_decide; cbn [iterable]; [|constructor].
  eapply sound_all_mines; eauto.
Qed.

Lemma known_safes_sound s :
  sound_sentence M s → Forall (λ c, c ∉ M) (iterable (Sentence.known_safes s)).
Proof.
  intros Hs%sound_sentence_eta. unfold Sentence.known_safes.
  case_decide; cbn [iterable]; [|constructor].
  eapply sound_all_safes; eauto.
Qed.

Lemma cleanup_step_sound (acc : t * list nat) i :
  Sound M acc.1 → reachM acc.1 (cleanup_step acc i).1.
Proof.
  intros Hst. unfold cleanup_step; cbn [fst].
  set (st1 := match knowledge acc.1 !! i with Some _ => _ | None => acc.1 end).
  assert (reachM acc.1 st1) as H1.
  { unfold st1. destruct (knowledge acc.1 !! i) as [s|] eqn:Hi; [|constructor].
    destruct (truthy _); [|constructor].
    apply reach_mark_mines, known_mines_sound. eapply Sound_lookup; eauto. }
  assert (Sound M st1) as Hst1 by (eapply Sound_reach; eauto).
  clearbody st1. eapply reach_trans; [apply H1|].
  destruct (knowledge st1 !! i) as [s|] eqn:Hi; [|constructor].
  destruct (truthy _); [|constructor].
  apply reach_mark_safes, known_safes_sound. eapply Sound_lookup; eauto.
Qed.

Lemma foldl_cleanup_step_sound (l : list nat) (acc : t * list nat) :
  Sound M acc.1 → reachM acc.1 (foldl cleanup_step acc l).1.
Proof.
  revert acc. induction l as [|i l IH]; intros acc Hst; cbn [foldl]; [constructor|].
  pose proof (cleanup_step_sound acc i Hst) as H1.
  eapply reach_trans; [apply H1|]. apply IH. eapply Sound_reach; eauto.
Qed.

Lemma final_cleanup_sound st : Sound M st → reachM st (final_cleanup st).
Proof.
  intros Hst. rewrite final_cleanup_fold.
  by apply (foldl_cleanup_step_sound _ (st, [])).
Qed.

Lemma new_sentence_sound st cell count :
  Sound M st →
  count = Z.of_nat (size (board_neighbors (height st) (width st) cell ∩ M)) →
  sound_sentence M (Sentence.mk (get_neighbors st cell count).1
                                (get_neighbors st cell count).2).
Proof.
  intros (Hm & Hs & _) ->. rewrite get_neighbors_spec. unfold sound_sentence.
  cbn [fst snd Sentence.cells Sentence.count].
  set (N := board_neighbors (height st) (width st) cell).
  replace ((N ∖ safes st ∖ mines st) ∩ M) with ((N ∩ M) ∖ (N ∩ mines st))
    by set_solver.
  rewrite size_difference by set_solver.
  assert (size (N ∩ mines st) ≤ size (N ∩ M)) by (apply subseteq_size; set_solver).
  lia.
Qed.

Lemma Sound_set_knowledge st k :
  Sound M st → Forall (sound_sentence M) k → Sound M (set_knowledge k st).
Proof. intros (? & ? & _) Hk. by split_and!. Qed.

Lemma Sound_record_move cell st :
  cell ∉ M → Sound M st → Sound M (record_move cell st).
Proof.
  intros Hc (Hm & Hs & Hk). unfold record_move.
  apply Sound_mark_safe; [done|]. by split_and!.
Qed.

Lemma Sound_remove_duplicates st : Sound M st → Sound M (remove_duplicates st).
Proof.
  intros Hst. apply Sound_set_knowledge; [done|].
  destruct Hst as (_ & _ & Hk). rewrite Forall_forall in Hk |- *.
  intros s Hs. apply Hk. by apply (remove_duplicates_elem_of st).
Qed.

(** The states that [add_knowledge] goes through under correct usage. *)
Lemma extended_structure cell count st :
  Sound M st → truthful M (height st) (width st) cell count →
  ∃ st4 inf,
    sound_sentence M (Sentence.mk (with_new_sentence cell count st).2.1
                                  (with_new_sentence cell count st).2.2) ∧
    Sound M (resolve_new (with_new_sentence cell count st).2.1
                         (with_new_sentence cell count st).2.2
                         (with_new_sentence cell count st).1) ∧
    reachM (resolve_new (with_new_sentence cell count st).2.1
                        (with_new_sentence cell count st).2.2
                        (with_new_sentence cell count st).1) st4 ∧
    Sound M st4 ∧ Forall (sound_sentence M) inf ∧
    extended cell count st = set_knowledge (knowledge st4 ++ inf) st4.
Proof.
  intros Hst [Hcell Hcount].
  pose proof (Sound_record_move cell st Hcell Hst) as Hst1.
  pose proof (new_sentence_sound (record_move cell st) cell count Hst1 Hcount)
    as Hnew.
  unfold extended, with_new_sentence. cbn [fst snd].
  set (st1 := record_move cell st) in *.
  set (nc := get_neighbors st1 cell count) in *.
  assert (Sound M (append_sentence nc.1 nc.2 st1)) as Hst2.
  { apply Sound_set_knowledge; [done|]. apply Forall_app. split.
    - apply Hst1.
    - by apply Forall_singleton. }
  set (st2 := append_sentence nc.1 nc.2 st1) in *.
  pose proof (resolve_new_reach nc.1 nc.2 st2 Hnew) as Hr3.
  set (st3 := resolve_new nc.1 nc.2 st2) in *.
  assert (Sound M st3) as Hst3 by (eapply Sound_reach; eauto).
  destruct (foldl_infer_step_sound nc.1 nc.2 (length (knowledge st1))
              (seq 0 (length (knowledge st3))) (st3, [])) as [Hr4 Hinf];
    [done..|].
  fold (draw_inferences nc.1 nc.2 (length (knowledge st1)) st3) in Hr4, Hinf.
  set (di := draw_inferences nc.1 nc.2 (length (knowledge st1)) st3) in *.
  cbn [fst] in Hr4.
  exists di.1, di.2. split_and!; try done. eapply Sound_reach; eauto.
Qed.

Lemma extended_sound cell count st :
  Sound M st → truthful M (height st) (width st) cell count →
  Sound M (extended cell count st).
Proof.
  intros Hst Htr.
  destruct (extended_structure cell count st Hst Htr)
    as (st4 & inf & _ & _ & _ & Hst4 & Hinf & ->).
  apply Sound_set_knowledge; [done|]. apply Forall_app. split; [apply Hst4|done].
Qed.

Lemma add_knowledge_sound cell count st :
  Sound M st → truthful M (height st) (width st) cell count →
  Sound M (add_knowledge cell count st).
Proof.
  intros Hst Htr. unfold add_knowledge.
  pose proof (Sound_remove_duplicates _ (extended_sound cell count st Hst Htr)) as H.
  eapply Sound_reach; [|apply H]. by apply final_cleanup_sound.
Qed.

End Soundness.

(** * Runs of public operations *)

Section Runs.

Implicit Types (st : t) (calls : list call).

Lemma add_knowledge_dims cell count st :
  height (add_knowledge cell count st) = height st ∧
  width (add_knowledge cell count st) = width st.
Proof.
  unfold add_knowledge.
  destruct (reach_frame _ _ _ _ (final_cleanup_reach_any
              (remove_duplicates (extended cell count st)))) as (-> & -> & _).
  unfold remove_duplicates, extended, set_knowledge. cbn [height width].
  set (r := with_new_sentence cell count st).
  destruct (reach_frame _ _ _ _ (foldl_infer_step_reach_any r.2.1 r.2.2
              (length (knowledge (record_move cell st)))
              (seq 0 (length (knowledge (resolve_new r.2.1 r.2.2 r.1))))
              (resolve_new r.2.1 r.2.2 r.1, []))) as (Hh & Hw & _).
  unfold draw_inferences. rewrite Hh, Hw. cbn [fst].
  destruct (reach_frame _ _ _ _ (resolve_new_reach_any r.2.1 r.2.2 r.1))
    as (-> & -> & _).
  done.
Qed.

Lemma exec_dims c st :
  height (exec st c) = height st ∧ width (exec st c) = width st.
Proof. destruct c; [apply add_knowledge_dims|done..]. Qed.

Lemma Sound_init M h w : Sound M (init h w).
Proof. unfold Sound, init. cbn. split_and!; [set_solver..|constructor]. Qed.

Lemma exec_sound M c st :
  Sound M st → correct_call M (height st) (width st) c → Sound M (exec st c).
Proof.
  destruct c as [cell count|cell|cell]; cbn [exec correct_call]; intros Hst Hc.
  - by apply add_knowledge_sound.
  - by apply Sound_mark_mine.
  - by apply Sound_mark_safe.
Qed.

Lemma run_sound M calls st :
  Sound M st → Forall (correct_call M (height st) (width st)) calls →
  Sound M (run calls st).
Proof.
  revert st. induction calls as [|c calls IH]; intros st Hst Hcalls; [done|].
  apply Forall_cons in Hcalls as [Hc Hcalls]. unfold run. cbn [foldl].
  apply IH; [by apply exec_sound|].
  by destruct (exec_dims c st) as [-> ->].
Qed.

Lemma Sound_count_bounds M st s :
  Sound M st → s ∈ knowledge st →
  (0 ≤ Sentence.count s ≤ Z.of_nat (size (Sentence.cells s)))%Z.
Proof.
  intros (_ & _ & Hk) Hs. rewrite Forall_forall in Hk. specialize (Hk s Hs).
  unfold sound_sentence in Hk. rewrite <- Hk.
  assert (size (Sentence.cells s ∩ M) ≤ size (Sentence.cells s))
    by (apply subseteq_size; set_solver).
  lia.
Qed.

Lemma Sound_disjoint M st : Sound M st → mines st ∩ safes st = ∅.
Proof. intros (? & ? & _). set_solver. Qed.

End Runs.

(** The clue 5 at a corner of a 3 by 3 board, which has 3 neighbors. *)
Lemma C4_count_above_size :
  ∃ s, s ∈ knowledge (run [AddKnowledge (0, 0)%Z 5] (init 3 3)) ∧
       ¬ (0 ≤ Sentence.count s ≤ Z.of_nat (size (Sentence.cells s)))%Z.
Proof.
  exists (Sentence.mk {[(0, 1)%Z; (1, 0)%Z; (1, 1)%Z]} 5). split; compute_done.
Qed.

(** C4, amended: under correct usage, that is for clues that are truthful
    for one layout of mines [M], with [mark_mine] called on mines of [M]
    only and [mark_safe] on other cells only, every sentence held after any
    run of public operations from a fresh knowledge base has a count between
    0 and its number of cells. *)
Theorem C4_count_within_bounds (M : gset Cell) (h w : Z) (calls : list call)
    (s : Sentence.t) :
  Forall (correct_call M h w) calls →
  s ∈ knowledge (run calls (init h w)) →
  (0 ≤ Sentence.count s ≤ Z.of_nat (size (Sentence.cells s)))%Z.
Proof.
  intros Hcalls Hs. eapply Sound_count_bounds; [|done].
  apply run_sound; [apply Sound_init | done].
Qed.

(** The bound on the 2 by 3 board, for the sentence {(0,0), (1,0)} = 1 that
    the three truthful clues leave in the list. *)
Lemma C4_count_within_bounds_witness :
  let s := Sentence.mk {[(0, 0)%Z; (1, 0)%Z]} 1 in
  (0 ≤ Sentence.count s ≤ Z.of_nat (size (Sentence.cells s)))%Z.
Proof.
  intros s. apply (C4_count_within_bounds mines23 2 3 calls23 s).
  - repeat constructor; compute_done.
  - compute_done.
Defined.

(** Probing a cell that was concluded to be a mine. *)
Lemma C5_mine_and_safe :
  mines (run [AddKnowledge (0, 0)%Z 1; AddKnowledge (0, 1)%Z 0] (init 1 2))
  ∩ safes (run [AddKnowledge (0, 0)%Z 1; AddKnowledge (0, 1)%Z 0] (init 1 2))
  ≠ ∅.
Proof. compute_done. Qed.

(** C5, amended: under correct usage (as for C4) the sets [mines] and
    [safes] are disjoint after any run of public operations from a fresh
    knowledge base. *)
Theorem C5_mines_safes_disjoint (M : gset Cell) (h w : Z) (calls : list call) :
  Forall (correct_call M h w) calls →
  mines (run calls (init h w)) ∩ safes (run calls (init h w)) = ∅.
Proof.
  intros Hcalls. apply (Sound_disjoint M).
  apply run_sound; [apply Sound_init | done].
Qed.

(** Disjointness on the 2 by 3 board after the three truthful clues. *)
Lemma C5_mines_safes_disjoint_witness :
  mines (run calls23 (init 2 3)) ∩ safes (run calls23 (init 2 3)) = ∅.
Proof.
  apply (C5_mines_safes_disjoint mines23 2 3 calls23).
  repeat constructor; compute_done.
Defined.

(** * A sentence of mines is resolved by the final loop *)

Section Tracking.

Context (M D : gset Cell).
Implicit Types (st : t) (s : Sentence.t) (c : Cell) (i : nat).

Local Abbreviation reachM := (reach (λ c, c ∈ M) (λ c, c ∉ M)).

Lemma tracked_at_reach i st st' : reachM st st' → tracked_at M D i st → tracked_at M D i st'.
Proof.
  intros Hr. eapply (reach_ind_inv _ _ (tracked_at M D i)); [| |apply Hr].
  - intros c st0 Hc (s & Hi & Hsub & HD).
    exists (Sentence.mark_mine c s). split.
    + unfold mark_mine. cbn [knowledge]. by rewrite list_lookup_fmap, Hi.
    + unfold tracked, mark_mine. cbn [mines]. rewrite mark_mine_cells.
      split; [set_solver|]. intros d Hd. specialize (HD d Hd).
      destruct (decide (d = c)); set_solver.
  - intros c st0 Hc (s & Hi & Hsub & HD).
    exists (Sentence.mark_safe c s). split.
    + unfold mark_safe. cbn [knowledge]. by rewrite list_lookup_fmap, Hi.
    + unfold tracked, mark_safe. cbn [mines]. rewrite mark_safe_cells.
      split; [set_solver|]. intros d Hd. specialize (HD d Hd). set_solver.
Qed.

Lemma tracked_elem_reach st st' :
  reachM st st' →
  (∃ s, s ∈ knowledge st ∧ tracked M D st s) →
  ∃ s, s ∈ knowledge st' ∧ tracked M D st' s.
Proof.
  intros Hr (s & [i Hi]%list_elem_of_lookup & Hs).
  destruct (tracked_at_reach i st st' Hr) as (s' & Hi' & Hs'); [by exists s|].
  exists s'. split; [|done]. apply list_elem_of_lookup. by exists i.
Qed.

Lemma cleanup_step_tracked (acc : t * list nat) i :
  Sound M acc.1 → tracked_at M D i acc.1 → D ⊆ mines (cleanup_step acc i).1.
Proof.
  intros Hst (s & Hi & Hsub & HD). unfold cleanup_step; cbn [fst]. rewrite Hi.
  assert (Sentence.known_mines s = Some (Sentence.cells s)) as ->.
  { unfold Sentence.known_mines. rewrite decide_True; [done|].
    pose proof (Sound_lookup M _ _ _ Hst Hi) as Hs. unfold sound_sentence in Hs.
    rewrite <- Hs. do 2 f_equal. set_solver. }
  set (st1 := if truthy (Some (Sentence.cells s)) then _ else acc.1).
  assert (D ⊆ mines st1) as HD1.
  { unfold st1, truthy, iterable. case_bool_decide as Hne.
    - destruct (mark_mines_frame (elements (Sentence.cells s)) acc.1)
        as (_ & _ & _ & _ & -> & _).
      rewrite list_to_set_elements_L. done.
    - set_solver. }
  clearbody st1.
  destruct (knowledge st1 !! i) as [s'|]; [|done].
  destruct (truthy _); [|done].
  by destruct (mark_safes_frame (iterable (Sentence.known_safes s')) st1)
    as (_ & _ & _ & -> & _).
Qed.

Lemma foldl_cleanup_step_tracked (l : list nat) (acc : t * list nat) i :
  Sound M acc.1 → i ∈ l → tracked_at M D i acc.1 →
  D ⊆ mines (foldl cleanup_step acc l).1.
Proof.
  revert acc. induction l as [|j l IH]; intros acc Hst Hi Htr; cbn [foldl].
  - by apply elem_of_nil in Hi.
  - destruct (decide (j = i)) as [->|Hne].
    + pose proof (cleanup_step_tracked acc i Hst Htr) as HD.
      destruct (reach_frame _ _ _ _
                  (foldl_cleanup_step_reach_any l (cleanup_step acc i)))
        as (_ & _ & _ & Hm & _).
      set_solver.
    + apply elem_of_cons in Hi as [->|Hi]; [done|].
      pose proof (cleanup_step_sound M acc j Hst) as Hr.
      apply IH; [eapply Sound_reach; eauto|done|].
      eapply tracked_at_reach; eauto.
Qed.

Lemma final_cleanup_tracked st :
  Sound M st → (∃ s, s ∈ knowledge st ∧ tracked M D st s) →
  D ⊆ mines (final_cleanup st).
Proof.
  intros Hst (s & [i Hi]%list_elem_of_lookup & Hs).
  rewrite final_cleanup_fold.
  apply (foldl_cleanup_step_tracked _ (st, []) i); [done| |by exists s].
  apply elem_of_seq. apply lookup_lt_Some in Hi. lia.
Qed.

End Tracking.

(** * Scenario D *)

Section ScenarioD.

Context (M : gset Cell).
Implicit Types (st : t) (s : Sentence.t) (c : Cell).

Local Abbreviation reachM := (reach (λ c, c ∈ M) (λ c, c ∉ M)).

Lemma mark_safes_elem (cs : list Cell) st s :
  s ∈ knowledge st →
  ∃ s', s' ∈ knowledge (mark_safes cs st) ∧
        Sentence.cells s' = Sentence.cells s ∖ list_to_set cs.
Proof.
  revert st s. induction cs as [|c cs IH]; intros st s Hs; cbn [mark_safes foldl].
  - exists s. split; [done|]. set_solver.
  - destruct (IH (mark_safe c st) (Sentence.mark_safe c s)) as (s' & Hs' & Hc).
    { unfold mark_safe. cbn [knowledge]. apply list_elem_of_fmap. by exists s. }
    exists s'. split; [done|]. rewrite Hc, mark_safe_cells. set_solver.
Qed.

End ScenarioD.

(** Scenario D without correct usage, on the 3 by 3 board: the clues 1 at
    (0,0) and 3 at (1,1), then [mark_mine] on (1,0) and [mark_safe] on (2,0)
    and (2,1).  The sentence {A,B,C,D} = 2 is held for A = (1,2), B = (2,2),
    C = (0,1), D = (0,2), none of them in [safes] or [mines]; the clue 1 at
    (2,1) gives the new sentence {A,B} = 0.  The list also holds
    {(0,1)} = 0, so the final loop marks C safe, and D stays undetermined. *)
Lemma C3_scenario_D_other_sentences :
  let st := run [AddKnowledge (0, 0)%Z 1; AddKnowledge (1, 1)%Z 3;
                 MarkMine (1, 0)%Z; MarkSafe (2, 0)%Z; MarkSafe (2, 1)%Z]
                (init 3 3) in
  let A : Cell := (1, 2)%Z in let B : Cell := (2, 2)%Z in
  let C : Cell := (0, 1)%Z in let D : Cell := (0, 2)%Z in
  Sentence.mk {[A; B; C; D]} 2 ∈ knowledge st ∧
  (with_new_sentence (2, 1)%Z 1 st).2 = ({[A; B]}, 0%Z) ∧
  {[A; B; C; D]} ## safes st ∪ mines st ∧
  knowledge st = [Sentence.mk {[C]} 0; Sentence.mk {[A; B; C; D]} 2;
                  Sentence.mk {[A; B; D]} 2] ∧
  C ∈ safes (add_knowledge (2, 1)%Z 1 st) ∧
  (C ∉ mines (add_knowledge (2, 1)%Z 1 st)) ∧
  (D ∉ mines (add_knowledge (2, 1)%Z 1 st)) ∧
  (D ∉ safes (add_knowledge (2, 1)%Z 1 st)).
Proof. split_and!; compute_done. Qed.

(** C3 (scenario D), amended: under correct usage, that is when the state
    agrees with a layout of mines [M] (every known mine holds a mine, no
    known safe cell does, every held sentence is true of [M]) and the clue
    is truthful for [M], if the sentence {A,B,C,D} = 2 is held and the new
    sentence of an [add_knowledge] call is {A,B} = 0, then after the call A
    and B are in [safes] and C and D are in [mines]. *)
Theorem C3_scenario_D (M : gset Cell) (st : t) (cell : Cell) (count : Z)
    (A B C D : Cell) :
  Sound M st → truthful M (height st) (width st) cell count →
  Sentence.mk {[A; B; C; D]} 2 ∈ knowledge st →
  (with_new_sentence cell count st).2 = ({[A; B]}, 0%Z) →
  A ∈ safes (add_knowledge cell count st) ∧
  B ∈ safes (add_knowledge cell count st) ∧
  C ∈ mines (add_knowledge cell count st) ∧
  D ∈ mines (add_knowledge cell count st).
Proof.
  intros Hst Htr HS Hnew.
  destruct (extended_structure M cell count st Hst Htr)
    as (st4 & inf & Hsnew & Hst3 & Hr4 & Hst4 & Hinf & Hext).
  rewrite Hnew in Hsnew, Hst3, Hr4. cbn [fst snd] in Hsnew, Hst3, Hr4.
  set (st2 := (with_new_sentence cell count st).1) in *.
  (* what the ground truth says about the four cells *)
  assert ((A ∉ M) ∧ (B ∉ M)) as [HA HB].
  { pose proof (sound_all_safes M _ _ Hsnew eq_refl) as H.
    rewrite Forall_forall in H.
    split; apply H, elem_of_elements; set_solver. }
  assert (cell ∉ M) as Hcell by apply Htr.
  assert (C ∈ M ∧ D ∈ M) as [HC HD].
  { destruct Hst as (_ & _ & Hk). rewrite Forall_forall in Hk.
    specialize (Hk _ HS). unfold sound_sentence in Hk.
    cbn [Sentence.cells Sentence.count] in Hk.
    split; apply dec_stable; intros Hn.
    - assert (size (({[A; B; C; D]} : gset Cell) ∩ M) ≤ size ({[D]} : gset Cell))
        as Hle by (apply subseteq_size; set_solver).
      rewrite size_singleton in Hle. lia.
    - assert (size (({[A; B; C; D]} : gset Cell) ∩ M) ≤ size ({[C]} : gset Cell))
        as Hle by (apply subseteq_size; set_solver).
      rewrite size_singleton in Hle. lia. }
  (* the state after the immediate conclusions *)
  assert (resolve_new {[A; B]} 0 st2 = mark_safes (elements ({[A; B]} : gset Cell)) st2)
    as Hres.
  { unfold resolve_new.
    destruct (decide (0%Z = 0%Z)) as [_|?]; [|done].
    destruct (decide (Z.of_nat (size ({[A; B]} : gset Cell)) = 0%Z)) as [Hsz|_];
      [|done].
    assert (size ({[A; B]} : gset Cell) = 0) as Hz by lia.
    apply size_empty_iff in Hz. set_solver. }
  rewrite Hres in Hst3, Hr4.
  set (st3 := mark_safes (elements ({[A; B]} : gset Cell)) st2) in *.
  assert ({[A; B]} ⊆ safes st3) as Hsafe3.
  { unfold st3.
    destruct (mark_safes_frame (elements ({[A; B]} : gset Cell)) st2)
      as (_ & _ & _ & _ & -> & _).
    rewrite list_to_set_elements_L. set_solver. }
  assert (∃ s, s ∈ knowledge st3 ∧ tracked M {[C; D]} st3 s) as Htr3.
  { destruct (mark_safes_elem (elements ({[A; B]} : gset Cell)) st2
                (Sentence.mark_safe cell (Sentence.mk {[A; B; C; D]} 2)))
      as (s & Hs & Hc).
    { unfold st2, with_new_sentence, append_sentence, record_move, mark_safe.
      cbn [fst knowledge set_knowledge]. apply elem_of_app. left.
      apply list_elem_of_fmap. eauto. }
    exists s. split; [done|].
    rewrite mark_safe_cells, list_to_set_elements_L in Hc.
    cbn [Sentence.cells] in Hc.
    unfold tracked. rewrite Hc. split; set_solver. }
  (* up to the final loop *)
  destruct (reach_frame _ _ _ _ Hr4) as (_ & _ & _ & _ & Hsafe4 & _).
  pose proof (tracked_elem_reach M {[C; D]} st3 st4 Hr4 Htr3) as (s4 & Hs4 & Htr4).
  unfold add_knowledge. rewrite Hext.
  set (st5 := remove_duplicates (set_knowledge (knowledge st4 ++ inf) st4)).
  assert (Sound M st5) as Hst5.
  { apply Sound_remove_duplicates, Sound_set_knowledge; [done|].
    apply Forall_app. split; [apply Hst4 | done]. }
  assert ({[C; D]} ⊆ mines (final_cleanup st5)) as Hmines.
  { apply (final_cleanup_tracked M); [done|]. exists s4. split.
    - apply remove_duplicates_elem_of. cbn [knowledge set_knowledge].
      apply elem_of_app. by left.
    - done. }
  destruct (reach_frame _ _ _ _ (final_cleanup_reach_any st5))
    as (_ & _ & _ & _ & Hsafe5 & _).
  assert (safes st5 = safes st4) as Hs54 by done.
  set_solver.
Qed.

(** On the 3 by 3 board the held sentence is {(1,0), (1,2), (0,0), (0,2)} = 2
    and the clue 0 at (2,1) gives the new sentence {(1,0), (1,2)} = 0. *)
Example board33_knowledge :
  knowledge board33 = [Sentence.mk {[(1, 0)%Z; (1, 2)%Z; (0, 0)%Z; (0, 2)%Z]} 2] ∧
  (with_new_sentence (2, 1)%Z 0 board33).2 = ({[(1, 0)%Z; (1, 2)%Z]}, 0%Z).
Proof. split; compute_done. Qed.

(** Scenario D on the 3 by 3 board. *)
Lemma C3_scenario_D_witness :
  (1, 0)%Z ∈ safes (add_knowledge (2, 1)%Z 0 board33) ∧
  (1, 2)%Z ∈ safes (add_knowledge (2, 1)%Z 0 board33) ∧
  (0, 0)%Z ∈ mines (add_knowledge (2, 1)%Z 0 board33) ∧
  (0, 2)%Z ∈ mines (add_knowledge (2, 1)%Z 0 board33).
Proof.
  apply (C3_scenario_D mines33 board33 (2, 1)%Z 0).
  - apply run_sound; [apply Sound_init|]. repeat constructor; compute_done.
  - split; compute_done.
  - compute_done.
  - compute_done.
Defined.

(** * Further properties of the sentences *)

(** X1. [Sentence.mark_mine] removes exactly the given cell; the count goes
    down by one when the cell was a member and is unchanged otherwise, in
    which case the sentence is unchanged. *)
Theorem sentence_mark_mine_effect (c : Cell) (s : Sentence.t) :
  Sentence.cells (Sentence.mark_mine c s) = Sentence.cells s ∖ {[c]} ∧
  (c ∈ Sentence.cells s →
   Sentence.count (Sentence.mark_mine c s) = (Sentence.count s - 1)%Z ∧
   S (size (Sentence.cells (Sentence.mark_mine c s))) = size (Sentence.cells s)) ∧
  (c ∉ Sentence.cells s → Sentence.mark_mine c s = s).
Proof.
  split_and!.
  - apply mark_mine_cells.
  - intros Hc. rewrite mark_mine_count, mark_mine_cells, decide_True by done.
    split; [done|].
    rewrite size_difference by set_solver. rewrite size_singleton.
    assert (size ({[c]} : gset Cell) ≤ size (Sentence.cells s)) as Hle
      by (apply subseteq_size; set_solver).
    rewrite size_singleton in Hle. lia.
  - apply mark_mine_absent.
Qed.

(** X2. [Sentence.mark_safe] removes exactly the given cell and never changes
    the count; a sentence that does not hold the cell is unchanged. *)
Theorem sentence_mark_safe_effect (c : Cell) (s : Sentence.t) :
  Sentence.cells (Sentence.mark_safe c s) = Sentence.cells s ∖ {[c]} ∧
  Sentence.count (Sentence.mark_safe c s) = Sentence.count s ∧
  (c ∉ Sentence.cells s → Sentence.mark_safe c s = s).
Proof.
  split_and!; [apply mark_safe_cells | done | apply mark_safe_absent].
Qed.

(** X3. Marking the cells of a set as mines, or as safe, gives the same state
    whatever the order in which the set is enumerated. *)
Theorem marking_order_irrelevant (cs cs' : list Cell) (st : t) :
  NoDup cs → NoDup cs' → (∀ c, c ∈ cs ↔ c ∈ cs') →
  mark_mines cs st = mark_mines cs' st ∧ mark_safes cs st = mark_safes cs' st.
Proof.
  intros Hcs Hcs' Heq.
  assert (cs ≡ₚ cs') as Hp by by apply NoDup_Permutation.
  split; [by apply mark_mines_Permutation | by apply mark_safes_Permutation].
Qed.

Lemma marking_order_irrelevant_witness :
  mark_mines [(0, 0)%Z; (1, 0)%Z] board23 = mark_mines [(1, 0)%Z; (0, 0)%Z] board23 ∧
  mark_safes [(0, 0)%Z; (1, 0)%Z] board23 = mark_safes [(1, 0)%Z; (0, 0)%Z] board23.
Proof.
  apply marking_order_irrelevant.
  - compute_done.
  - compute_done.
  - intros c. rewrite !elem_of_cons, !elem_of_nil. tauto.
Defined.

(** X4. A sentence that is true of a layout of mines stays true when a mine
    of the layout is marked as a mine in it, and when a cell without a mine
    is marked safe in it. *)
Theorem sentence_marks_keep_truth (M : gset Cell) (c : Cell) (s : Sentence.t) :
  sound_sentence M s →
  (c ∈ M → sound_sentence M (Sentence.mark_mine c s)) ∧
  (c ∉ M → sound_sentence M (Sentence.mark_safe c s)).
Proof.
  intros Hs. split; intros Hc; [by apply sound_mark_mine | by apply sound_mark_safe].
Qed.

Lemma sentence_marks_keep_truth_witness :
  let s := Sentence.mk {[(0, 0)%Z; (0, 1)%Z; (1, 0)%Z]} 2 in
  ((0, 0)%Z ∈ mines23 → sound_sentence mines23 (Sentence.mark_mine (0, 0)%Z s)) ∧
  ((0, 0)%Z ∉ mines23 → sound_sentence mines23 (Sentence.mark_safe (0, 0)%Z s)).
Proof.
  intros s. apply (sentence_marks_keep_truth mines23 (0, 0)%Z s).
  unfold sound_sentence. compute_done.
Defined.

(** X5. For a sentence that is true of a layout of mines, the cells that
    [known_mines] returns all hold a mine and the cells that [known_safes]
    returns hold none. *)
Theorem known_cells_are_right (M : gset Cell) (s : Sentence.t) (X : gset Cell) :
  sound_sentence M s →
  (Sentence.known_mines s = Some X → X ⊆ M) ∧
  (Sentence.known_safes s = Some X → X ## M).
Proof.
  intros Hs. split; intros HX.
  - pose proof (known_mines_sound M s Hs) as H. rewrite HX in H.
    cbn [iterable] in H. rewrite Forall_forall in H.
    intros c Hc. by apply H, elem_of_elements.
  - pose proof (known_safes_sound M s Hs) as H. rewrite HX in H.
    cbn [iterable] in H. rewrite Forall_forall in H.
    intros c Hc. by apply (H c), elem_of_elements.
Qed.

Lemma known_cells_are_right_witness :
  let s := Sentence.mk {[(0, 0)%Z; (0, 1)%Z]} 2 in
  (Sentence.known_mines s = Some {[(0, 0)%Z; (0, 1)%Z]} →
   {[(0, 0)%Z; (0, 1)%Z]} ⊆ mines23) ∧
  (Sentence.known_safes s = Some {[(0, 0)%Z; (0, 1)%Z]} →
   {[(0, 0)%Z; (0, 1)%Z]} ## mines23).
Proof.
  intros s. apply (known_cells_are_right mines23 s).
  unfold sound_sentence. compute_done.
Defined.

(** * What a call of [add_knowledge] keeps and adds *)

Section Frame.

Implicit Types (st : t) (cell : Cell) (count : Z).

Lemma remove_duplicates_frame st :
  mines (remove_duplicates st) = mines st ∧
  safes (remove_duplicates st) = safes st ∧
  moves_made (remove_duplicates st) = moves_made st.
Proof. done. Qed.

Lemma extended_frame cell count st :
  let r := with_new_sentence cell count st in
  let st3 := resolve_new r.2.1 r.2.2 r.1 in
  let di := draw_inferences r.2.1 r.2.2 (length (knowledge (record_move cell st))) st3 in
  mines (extended cell count st) = mines di.1 ∧
  safes (extended cell count st) = safes di.1 ∧
  moves_made (extended cell count st) = moves_made di.1.
Proof.
  intros r st3 di. unfold extended, set_knowledge. cbn [mines safes moves_made].
  by split_and!.
Qed.

Lemma add_knowledge_after_resolve cell count st :
  let r := with_new_sentence cell count st in
  let st3 := resolve_new r.2.1 r.2.2 r.1 in
  mines st3 ⊆ mines (add_knowledge cell count st) ∧
  safes st3 ⊆ safes (add_knowledge cell count st) ∧
  moves_made (add_knowledge cell count st) = moves_made st3.
Proof.
  intros r st3. unfold add_knowledge.
  destruct (reach_frame _ _ _ _ (final_cleanup_reach_any
              (remove_duplicates (extended cell count st))))
    as (_ & _ & Hmv5 & Hm5 & Hs5 & _).
  destruct (remove_duplicates_frame (extended cell count st)) as (Hm & Hs & Hmv).
  rewrite Hm in Hm5. rewrite Hs in Hs5. rewrite Hmv in Hmv5.
  destruct (extended_frame cell count st) as (Hm' & Hs' & Hmv').
  rewrite Hm' in Hm5. rewrite Hs' in Hs5. rewrite Hmv' in Hmv5.
  clear Hm Hs Hmv Hm' Hs' Hmv'.
  destruct (reach_frame _ _ _ _ (foldl_infer_step_reach_any r.2.1 r.2.2
              (length (knowledge (record_move cell st)))
              (seq 0 (length (knowledge st3))) (st3, [])))
    as (_ & _ & Hmv4 & Hm4 & Hs4 & _).
  fold (draw_inferences r.2.1 r.2.2 (length (knowledge (record_move cell st))) st3)
    in Hmv4, Hm4, Hs4.
  cbn [fst] in Hmv4, Hm4, Hs4.
  fold r in Hm5, Hs5, Hmv5. fold st3 in Hm5, Hs5, Hmv5.
  (split_and!; [by etrans | by etrans | congruence]).
Qed.

Lemma resolve_new_frame newcells count st :
  mines st ⊆ mines (resolve_new newcells count st) ∧
  safes st ⊆ safes (resolve_new newcells count st) ∧
  moves_made (resolve_new newcells count st) = moves_made st.
Proof.
  destruct (reach_frame _ _ _ _ (resolve_new_reach_any newcells count st))
    as (_ & _ & -> & ? & ? & _). done.
Qed.

End Frame.

(** The frame of a call, for use in other proofs. *)
Lemma add_knowledge_frame_aux (cell : Cell) (count : Z) (st : t) :
  height (add_knowledge cell count st) = height st ∧
  width (add_knowledge cell count st) = width st ∧
  moves_made (add_knowledge cell count st) = {[cell]} ∪ moves_made st ∧
  cell ∈ safes (add_knowledge cell count st) ∧
  safes st ⊆ safes (add_knowledge cell count st) ∧
  mines st ⊆ mines (add_knowledge cell count st).
Proof.
  destruct (add_knowledge_dims cell count st) as [-> ->].
  destruct (add_knowledge_after_resolve cell count st) as (Hm & Hs & ->).
  destruct (resolve_new_frame (with_new_sentence cell count st).2.1
              (with_new_sentence cell count st).2.2
              (with_new_sentence cell count st).1) as (Hm3 & Hs3 & ->).
  change (mines (with_new_sentence cell count st).1) with (mines st) in Hm3.
  change (safes (with_new_sentence cell count st).1)
    with ({[cell]} ∪ safes st) in Hs3.
  change (moves_made (with_new_sentence cell count st).1)
    with ({[cell]} ∪ moves_made st).
  set (st3 := resolve_new _ _ _) in *. set (st' := add_knowledge cell count st) in *.
  clearbody st3 st'.
  split_and!; try done; set_solver.
Qed.

(** X6. Whatever the state and the arguments, [add_knowledge] leaves
    [height] and [width] alone, adds exactly the probed cell to
    [moves_made], puts the probed cell in [safes], and removes nothing from
    [mines] or [safes]. *)
Theorem add_knowledge_frame (cell : Cell) (count : Z) (st : t) :
  height (add_knowledge cell count st) = height st ∧
  width (add_knowledge cell count st) = width st ∧
  moves_made (add_knowledge cell count st) = {[cell]} ∪ moves_made st ∧
  cell ∈ safes (add_knowledge cell count st) ∧
  safes st ⊆ safes (add_knowledge cell count st) ∧
  mines st ⊆ mines (add_knowledge cell count st).
Proof. apply add_knowledge_frame_aux. Qed.

(** X7. When the count left after subtracting the known mines is 0, every
    undetermined neighbor is in [safes] when the call returns. *)
Theorem zero_clue_neighbors_safe (cell : Cell) (count : Z) (st : t) :
  (with_new_sentence cell count st).2.2 = 0%Z →
  (with_new_sentence cell count st).2.1 ⊆ safes (add_knowledge cell count st).
Proof.
  intros H0.
  destruct (add_knowledge_after_resolve cell count st) as (_ & Hs & _).
  etrans; [|apply Hs]. unfold resolve_new. rewrite H0.
  rewrite (decide_True (P := 0%Z = 0%Z)) by done.
  set (nc := (with_new_sentence cell count st).2.1).
  set (st2 := (with_new_sentence cell count st).1).
  clearbody nc st2.
  assert (nc ⊆ safes (mark_safes (elements nc) st2)) as Hnc.
  { destruct (mark_safes_frame (elements nc) st2) as (_ & _ & _ & _ & -> & _).
    rewrite list_to_set_elements_L. apply union_subseteq_l. }
  case_decide; [|done].
  destruct (mark_mines_frame (elements nc) (mark_safes (elements nc) st2))
    as (_ & _ & _ & -> & _). done.
Qed.

(** Scenario A: the clue 0 in the middle of a fresh 3 by 3 board. *)
Lemma zero_clue_neighbors_safe_witness :
  (with_new_sentence (1, 1)%Z 0 (init 3 3)).2.1
  ⊆ safes (add_knowledge (1, 1)%Z 0 (init 3 3)).
Proof. apply zero_clue_neighbors_safe. compute_done. Defined.

(** X8. When the count left after subtracting the known mines equals the
    number of undetermined neighbors, every one of them is in [mines] when
    the call returns. *)
Theorem saturated_clue_neighbors_mines (cell : Cell) (count : Z) (st : t) :
  (with_new_sentence cell count st).2.2
  = Z.of_nat (size (with_new_sentence cell count st).2.1) →
  (with_new_sentence cell count st).2.1 ⊆ mines (add_knowledge cell count st).
Proof.
  intros Hsat.
  destruct (add_knowledge_after_resolve cell count st) as (Hm & _ & _).
  etrans; [|apply Hm]. unfold resolve_new.
  set (nc := (with_new_sentence cell count st).2.1) in *.
  set (n := (with_new_sentence cell count st).2.2) in *.
  set (st2 := (with_new_sentence cell count st).1).
  clearbody nc n st2.
  rewrite (decide_True (P := Z.of_nat (size nc) = n)) by done.
  match goal with
  | |- _ ⊆ mines (mark_mines _ ?s) =>
      destruct (mark_mines_frame (elements nc) s) as (_ & _ & _ & _ & -> & _)
  end.
  rewrite list_to_set_elements_L. apply union_subseteq_l.
Qed.

(** Scenario B: the clue 3 at a corner of a fresh 3 by 3 board. *)
Lemma saturated_clue_neighbors_mines_witness :
  (with_new_sentence (0, 0)%Z 3 (init 3 3)).2.1
  ⊆ mines (add_knowledge (0, 0)%Z 3 (init 3 3)).
Proof. apply saturated_clue_neighbors_mines. compute_done. Defined.

(** * The knowledge list through a call *)

Section Positions.

Implicit Types (st : t) (i : nat) (s : Sentence.t).

(** A run of markings keeps every position of the list and only shrinks the
    cell sets. *)
Lemma reach_lookup (Pm Ps : Cell → Prop) st st' i s :
  reach Pm Ps st st' → knowledge st !! i = Some s →
  ∃ s', knowledge st' !! i = Some s' ∧ Sentence.cells s' ⊆ Sentence.cells s.
Proof.
  intros Hr. revert s. induction Hr as [st|c st st' _ _ IH|c st st' _ _ IH]; intros s Hi.
  - by exists s.
  - destruct (IH (Sentence.mark_mine c s)) as (s' & Hs' & Hsub).
    { unfold mark_mine. cbn [knowledge]. by rewrite list_lookup_fmap, Hi. }
    exists s'. split; [done|]. rewrite mark_mine_cells in Hsub. set_solver.
  - destruct (IH (Sentence.mark_safe c s)) as (s' & Hs' & Hsub).
    { unfold mark_safe. cbn [knowledge]. by rewrite list_lookup_fmap, Hi. }
    exists s'. split; [done|]. rewrite mark_safe_cells in Hsub. set_solver.
Qed.

Lemma foldl_unique_step_nonempty (l u : list Sentence.t) :
  u ≠ [] ∨ l ≠ [] → foldl unique_step u l ≠ [].
Proof.
  revert u. induction l as [|a l IH]; intros u H; cbn [foldl].
  - by destruct H.
  - apply IH. left. unfold unique_step.
    destruct (existsb (Sentence.eqb a) u) eqn:E.
    + intros ->. done.
    + by destruct u.
Qed.

End Positions.

(** X9. The final loop of [add_knowledge] removes no sentence: the list it
    leaves has the length of the list it was given, position by position
    the cells of a sentence can only have been removed, and therefore the
    knowledge list is never empty when [add_knowledge] returns. *)
Theorem final_loop_keeps_every_sentence (cell : Cell) (count : Z) (st : t) :
  (∀ st0, length (knowledge (final_cleanup st0)) = length (knowledge st0)) ∧
  (∀ st0 i s, knowledge st0 !! i = Some s →
     ∃ s', knowledge (final_cleanup st0) !! i = Some s' ∧
           Sentence.cells s' ⊆ Sentence.cells s) ∧
  length (knowledge (add_knowledge cell count st))
  = length (knowledge (remove_duplicates (extended cell count st))) ∧
  knowledge (add_knowledge cell count st) ≠ [].
Proof.
  assert (∀ st0, length (knowledge (final_cleanup st0)) = length (knowledge st0))
    as Hlen.
  { intros st0.
    by destruct (reach_frame _ _ _ _ (final_cleanup_reach_any st0))
      as (_ & _ & _ & _ & _ & ->). }
  split_and!.
  - done.
  - intros st0 i s Hi. eapply reach_lookup; [apply final_cleanup_reach_any|done].
  - apply Hlen.
  - intros Hnil. apply (f_equal length) in Hnil.
    unfold add_knowledge in Hnil. rewrite Hlen in Hnil.
    apply length_zero_iff_nil in Hnil. revert Hnil.
    unfold remove_duplicates. cbn [knowledge set_knowledge].
    apply foldl_unique_step_nonempty. right.
    unfold extended. cbn [knowledge set_knowledge].
    intros [Hk _]%app_eq_nil. apply (f_equal length) in Hk. revert Hk.
    set (r := with_new_sentence cell count st).
    destruct (reach_frame _ _ _ _ (foldl_infer_step_reach_any r.2.1 r.2.2
                (length (knowledge (record_move cell st)))
                (seq 0 (length (knowledge (resolve_new r.2.1 r.2.2 r.1))))
                (resolve_new r.2.1 r.2.2 r.1, []))) as (_ & _ & _ & _ & _ & Hl4).
    unfold draw_inferences. rewrite Hl4. cbn [fst].
    destruct (reach_frame _ _ _ _ (resolve_new_reach_any r.2.1 r.2.2 r.1))
      as (_ & _ & _ & _ & _ & ->).
    unfold r, with_new_sentence, append_sentence. cbn [fst knowledge set_knowledge].
    rewrite length_app. cbn [length]. lia.
Qed.

(** * Correct conclusions *)

(** X10. If the state agrees with a layout of mines (every known mine holds
    a mine, no known safe cell does, every held sentence is true of the
    layout) and the clue is truthful, the state after [add_knowledge] agrees
    with the layout too: every conclusion the call draws is correct. *)
Theorem add_knowledge_keeps_agreement (M : gset Cell) (cell : Cell) (count : Z)
    (st : t) :
  Sound M st → truthful M (height st) (width st) cell count →
  Sound M (add_knowledge cell count st).
Proof. apply add_knowledge_sound. Qed.

Lemma add_knowledge_keeps_agreement_witness :
  Sound mines33 (add_knowledge (2, 1)%Z 0 board33).
Proof.
  apply add_knowledge_keeps_agreement.
  - apply run_sound; [apply Sound_init|]. repeat constructor; compute_done.
  - split; compute_done.
Defined.

Lemma make_safe_move_Some (st : t) (c : Cell) :
  (make_safe_move st).1 = Some c → c ∈ safes st ∧ c ∉ moves_made st.
Proof.
  unfold make_safe_move. cbn [fst]. case_decide; [|done].
  intros Hc. assert (c ∈ safes st ∖ moves_made st) as Hin.
  { apply elem_of_elements. destruct (elements _); simplify_eq/=. left. }
  set_solver.
Qed.

(** X11. After any run of correct calls on a fresh knowledge base, a cell
    that [make_safe_move] returns holds no mine and has not been probed. *)
Theorem safe_move_is_safe (M : gset Cell) (h w : Z) (calls : list call)
    (c : Cell) :
  Forall (correct_call M h w) calls →
  (make_safe_move (run calls (init h w))).1 = Some c →
  (c ∉ M) ∧ (c ∉ moves_made (run calls (init h w))).
Proof.
  intros Hcalls [Hs Hmv]%make_safe_move_Some.
  assert (Sound M (run calls (init h w))) as (_ & Hdisj & _)
    by (apply run_sound; [apply Sound_init | done]).
  split; [|done]. set (st := run calls (init h w)) in *. clearbody st.
  set_solver.
Qed.

Lemma safe_move_is_safe_witness :
  ((2, 0)%Z ∉ mines33) ∧
  ((2, 0)%Z ∉ moves_made
     (run [AddKnowledge (0, 1)%Z 2; AddKnowledge (1, 1)%Z 2] (init 3 3))).
Proof.
  apply (safe_move_is_safe mines33 3 3
           [AddKnowledge (0, 1)%Z 2; AddKnowledge (1, 1)%Z 2] (2, 0)%Z).
  - repeat constructor; compute_done.
  - compute_done.
Defined.

(** X12. After any run of public operations on a fresh knowledge base, every
    cell of [moves_made] is in [safes]. *)
Theorem moves_made_are_safes (h w : Z) (calls : list call) :
  moves_made (run calls (init h w)) ⊆ safes (run calls (init h w)).
Proof.
  assert (∀ st, moves_made st ⊆ safes st →
                moves_made (run calls st) ⊆ safes (run calls st)) as H.
  { induction calls as [|c calls IH]; intros st Hst; [done|].
    unfold run. cbn [foldl]. apply IH.
    destruct c as [cell count|cell|cell]; cbn [exec].
    - destruct (add_knowledge_frame_aux cell count st) as (_ & _ & Hmv & Hc & Hs & _).
      rewrite Hmv. set (st' := add_knowledge cell count st) in *. clearbody st'.
      set_solver.
    - done.
    - unfold mark_safe. cbn [moves_made safes]. set_solver. }
  apply H. done.
Qed.

(** * Removing duplicates, continued *)

Section UniqueMore.

Implicit Types (s : Sentence.t) (l u : list Sentence.t).

Lemma foldl_unique_step_sublist l u :
  ∃ l', foldl unique_step u l = u ++ l' ∧ l' `sublist_of` l.
Proof.
  revert u. induction l as [|a l IH]; intros u; cbn [foldl].
  - exists []. by rewrite app_nil_r.
  - unfold unique_step at 2. destruct (existsb (Sentence.eqb a) u).
    + destruct (IH u) as (l' & -> & Hsub). exists l'. split; [done|].
      by apply sublist_cons.
    + destruct (IH (u ++ [a])) as (l' & -> & Hsub). exists (a :: l').
      split; [by rewrite <- app_assoc|]. by apply sublist_skip.
Qed.

Lemma foldl_unique_step_NoDup_id l u :
  NoDup (u ++ l) → foldl unique_step u l = u ++ l.
Proof.
  revert u. induction l as [|a l IH]; intros u Hnd; cbn [foldl].
  - by rewrite app_nil_r.
  - unfold unique_step.
    destruct (existsb (Sentence.eqb a) u) eqn:E.
    + apply existsb_eqb in E. apply NoDup_app in Hnd as (_ & Hd & _).
      exfalso. apply (Hd a E). left.
    + rewrite IH; rewrite <- app_assoc; done.
Qed.

End UniqueMore.

Section UniqueOrder.

Implicit Types (s : Sentence.t) (l u : list Sentence.t).

(** In the list of kept sentences, a sentence that comes before another one
    has a copy in the given list before every copy of the other. *)
Lemma foldl_unique_step_order l i j s1 s2 :
  foldl unique_step [] l !! i = Some s1 →
  foldl unique_step [] l !! j = Some s2 → i < j →
  ∃ k, l !! k = Some s1 ∧ s2 ∉ take k l.
Proof.
  revert i j s1 s2. induction l as [|a l IH] using rev_ind; intros i j s1 s2.
  { cbn [foldl]. by rewrite lookup_nil. }
  rewrite foldl_app. cbn [foldl]. set (u := foldl unique_step [] l) in *.
  assert (∀ k s, l !! k = Some s1 → s ∉ take k l →
            (l ++ [a]) !! k = Some s1 ∧ s ∉ take k (l ++ [a])) as Hkeep.
  { intros k s Hk Hs. pose proof (lookup_lt_Some _ _ _ Hk) as Hlt.
    split; [by apply lookup_app_l_Some|].
    rewrite take_app_le by lia. done. }
  unfold unique_step. destruct (existsb (Sentence.eqb a) u) eqn:E.
  - intros Hi Hj Hij. destruct (IH i j s1 s2 Hi Hj Hij) as (k & Hk & Hs).
    exists k. by apply Hkeep.
  - intros Hi Hj Hij.
    assert (i < length u) as Hlen.
    { apply lookup_lt_Some in Hj. rewrite length_app in Hj. cbn [length] in Hj. lia. }
    rewrite lookup_app_l in Hi by done.
    destruct (decide (j < length u)) as [Hjl|Hjl].
    + rewrite lookup_app_l in Hj by done.
      destruct (IH i j s1 s2 Hi Hj Hij) as (k & Hk & Hs).
      exists k. by apply Hkeep.
    + rewrite lookup_app_r in Hj by lia.
      apply list_lookup_singleton_Some in Hj as [_ <-].
      assert (s1 ∈ l) as [k Hk]%list_elem_of_lookup.
      { apply list_elem_of_lookup_2 in Hi. unfold u in Hi.
        apply foldl_unique_step_elem_of in Hi as [Hi|Hi]; [|done].
        by apply elem_of_nil in Hi. }
      exists k. apply Hkeep; [done|].
      intros Ha%elem_of_take. destruct Ha as (k' & Ha & _).
      apply list_elem_of_lookup_2 in Ha.
      assert (a ∈ u) as Hu.
      { unfold u. apply foldl_unique_step_elem_of. by right. }
      apply existsb_eqb in Hu. congruence.
Qed.

End UniqueOrder.

(** X13. The "Remove duplicates" block keeps the first copy of every
    sentence and drops the later ones: its result holds no two equal
    sentences, it holds the same sentences as the list it is given, it is a
    sublist of that list and starts with the same sentence, and of two
    sentences of the result the earlier one has a copy in the given list
    before every copy of the later one.  The block changes nothing in a
    list without equal sentences, and running it twice is the same as
    running it once.  [add_knowledge] runs the block on the list that its
    inferences leave and hands the result to the final loop. *)
Theorem remove_duplicates_stable (st : t) :
  knowledge (remove_duplicates st) `sublist_of` knowledge st ∧
  head (knowledge (remove_duplicates st)) = head (knowledge st) ∧
  (NoDup (knowledge st) → remove_duplicates st = st) ∧
  remove_duplicates (remove_duplicates st) = remove_duplicates st ∧
  NoDup (knowledge (remove_duplicates st)) ∧
  (∀ s, s ∈ knowledge (remove_duplicates st) ↔ s ∈ knowledge st) ∧
  (∀ i j s1 s2,
     knowledge (remove_duplicates st) !! i = Some s1 →
     knowledge (remove_duplicates st) !! j = Some s2 → i < j →
     ∃ k, knowledge st !! k = Some s1 ∧ s2 ∉ take k (knowledge st)) ∧
  (∀ cell count,
     add_knowledge cell count st
     = final_cleanup (remove_duplicates (extended cell count st))).
Proof.
  assert (∀ st0, NoDup (knowledge st0) → remove_duplicates st0 = st0) as Hid.
  { intros st0 Hnd. unfold remove_duplicates.
    rewrite foldl_unique_step_NoDup_id by done. apply set_knowledge_id. }
  split_and!.
  - unfold remove_duplicates. cbn [knowledge set_knowledge].
    by destruct (foldl_unique_step_sublist (knowledge st) []) as (l' & -> & Hsub).
  - unfold remove_duplicates. cbn [knowledge set_knowledge].
    destruct (knowledge st) as [|a l]; [done|]. cbn [foldl unique_step existsb].
    by destruct (foldl_unique_step_sublist l ([] ++ [a])) as (l' & -> & _).
  - apply Hid.
  - apply Hid, remove_duplicates_NoDup.
  - apply remove_duplicates_NoDup.
  - intros s. apply remove_duplicates_elem_of.
  - intros i j s1 s2. unfold remove_duplicates. cbn [knowledge set_knowledge].
    apply foldl_unique_step_order.
  - done.
Qed.

(** * Where the cells of the sentences come from *)

Section Confined.

Context (P : Cell → Prop) (M0 S0 : gset Cell).
Implicit Types (st : t) (s : Sentence.t) (c : Cell).

Local Abbreviation reachP := (reach P P).

Lemma confined_reach st st' :
  reachP st st' → confined P M0 S0 st → confined P M0 S0 st'.
Proof.
  intros Hr. eapply (reach_ind_inv _ _ (confined P M0 S0)); [| |apply Hr].
  - intros c st0 Hc (Hk & Hm & Hs). unfold confined, mark_mine.
    cbn [knowledge mines safes]. split_and!; [|set_solver|done].
    apply Forall_fmap. eapply Forall_impl; [apply Hk|].
    intros s Hsc d. unfold compose. rewrite mark_mine_cells. set_solver.
  - intros c st0 Hc (Hk & Hm & Hs). unfold confined, mark_safe.
    cbn [knowledge mines safes]. split_and!; [|done|set_solver].
    apply Forall_fmap. eapply Forall_impl; [apply Hk|].
    intros s Hsc d. unfold compose. rewrite mark_safe_cells. set_solver.
Qed.

Lemma Forall_elements_P (X : gset Cell) :
  (∀ c, c ∈ X → P c) → Forall P (elements X).
Proof. intros H. apply Forall_forall. intros c Hc%elem_of_elements. auto. Qed.

Lemma resolve_new_reachP newcells count st :
  (∀ c, c ∈ newcells → P c) → reachP st (resolve_new newcells count st).
Proof.
  intros Hnc. unfold resolve_new.
  set (st1 := if decide (count = 0%Z) then _ else st).
  assert (reachP st st1) as H1.
  { unfold st1. case_decide; [|constructor].
    by apply reach_mark_safes, Forall_elements_P. }
  eapply reach_trans; [apply H1|].
  case_decide; [|constructor]. by apply reach_mark_mines, Forall_elements_P.
Qed.

Lemma conclude_confined setdiff cntdiff (acc : t * list Sentence.t) :
  (∀ c, c ∈ setdiff → P c) → cells_in P acc.2 →
  reachP acc.1 (conclude setdiff cntdiff acc).1 ∧
  cells_in P (conclude setdiff cntdiff acc).2.
Proof.
  intros Hsd Hacc. unfold conclude. repeat case_decide; cbn [fst snd].
  - split; [|done]. by apply reach_mark_mines, Forall_elements_P.
  - split; [|done]. by apply reach_mark_safes, Forall_elements_P.
  - split; [constructor|]. apply Forall_app. split; [done|].
    by apply Forall_singleton.
Qed.

Lemma cells_in_lookup st i s c :
  confined P M0 S0 st → knowledge st !! i = Some s → c ∈ Sentence.cells s → P c.
Proof.
  intros (Hk & _) Hi Hc. eapply (Forall_lookup_1 _ _ _ _ Hk Hi); eauto.
Qed.

Lemma infer_step_confined newcells count newsentence (acc : t * list Sentence.t) i :
  (∀ c, c ∈ newcells → P c) →
  confined P M0 S0 acc.1 → cells_in P acc.2 →
  reachP acc.1 (infer_step newcells count newsentence acc i).1 ∧
  cells_in P (infer_step newcells count newsentence acc i).2.
Proof.
  intros Hnew Hst Hinf. unfold infer_step.
  destruct (knowledge acc.1 !! i) as [sentence|] eqn:Hi; [|split; [constructor|done]].
  destruct (knowledge acc.1 !! newsentence) as [new|]; [|split; [constructor|done]].
  destruct (Sentence.eqb sentence new); [split; [constructor|done]|].
  set (acc1 := if decide (Sentence.cells sentence ⊆ newcells) then _ else acc).
  assert (reachP acc.1 acc1.1 ∧ cells_in P acc1.2) as [Hr1 Hinf1].
  { unfold acc1. case_decide; [|split; [constructor|done]].
    apply conclude_confined; [|done]. set_solver. }
  assert (confined P M0 S0 acc1.1) as Hst1 by (eapply confined_reach; eauto).
  clearbody acc1.
  destruct (knowledge acc1.1 !! i) as [sentence'|] eqn:Hi'; [|done].
  case_decide; [|done].
  destruct (conclude_confined (Sentence.cells sentence' ∖ newcells)
              (Sentence.count sentence' - count) acc1) as [Hr2 Hinf2]; [|done|].
  { intros c Hc. eapply cells_in_lookup; eauto. set_solver. }
  split; [|done]. eapply reach_trans; eauto.
Qed.

Lemma foldl_infer_step_confined newcells count newsentence (l : list nat)
    (acc : t * list Sentence.t) :
  (∀ c, c ∈ newcells → P c) →
  confined P M0 S0 acc.1 → cells_in P acc.2 →
  reachP acc.1 (foldl (infer_step newcells count newsentence) acc l).1 ∧
  cells_in P (foldl (infer_step newcells count newsentence) acc l).2.
Proof.
  intros Hnew. revert acc. induction l as [|i l IH]; intros acc Hst Hinf; cbn [foldl].
  - split; [constructor|done].
  - destruct (infer_step_confined newcells count newsentence acc i) as [Hr1 Hinf1];
      [done..|].
    destruct (IH (infer_step newcells count newsentence acc i)) as [Hr2 Hinf2];
      [eapply confined_reach; eauto|done|].
    split; [|done]. eapply reach_trans; eauto.
Qed.

Lemma cleanup_step_confined (acc : t * list nat) i :
  confined P M0 S0 acc.1 → reachP acc.1 (cleanup_step acc i).1.
Proof.
  intros Hst. unfold cleanup_step; cbn [fst].
  set (st1 := match knowledge acc.1 !! i with Some _ => _ | None => acc.1 end).
  assert (reachP acc.1 st1) as H1.
  { unfold st1. destruct (knowledge acc.1 !! i) as [s|] eqn:Hi; [|constructor].
    destruct (truthy _); [|constructor].
    apply reach_mark_mines. unfold Sentence.known_mines.
    case_decide; cbn [iterable]; [|constructor].
    apply Forall_elements_P. intros c Hc. eapply cells_in_lookup; eauto. }
  assert (confined P M0 S0 st1) as Hst1 by (eapply confined_reach; eauto).
  clearbody st1. eapply reach_trans; [apply H1|].
  destruct (knowledge st1 !! i) as [s|] eqn:Hi; [|constructor].
  destruct (truthy _); [|constructor].
  apply reach_mark_safes. unfold Sentence.known_safes.
  case_decide; cbn [iterable]; [|constructor].
  apply Forall_elements_P. intros c Hc. eapply cells_in_lookup; eauto.
Qed.

Lemma foldl_cleanup_step_confined (l : list nat) (acc : t * list nat) :
  confined P M0 S0 acc.1 → reachP acc.1 (foldl cleanup_step acc l).1.
Proof.
  revert acc. induction l as [|i l IH]; intros acc Hst; cbn [foldl]; [constructor|].
  pose proof (cleanup_step_confined acc i Hst) as H1.
  eapply reach_trans; [apply H1|]. apply IH. eapply confined_reach; eauto.
Qed.

Lemma confined_set_knowledge st k :
  confined P M0 S0 st → cells_in P k → confined P M0 S0 (set_knowledge k st).
Proof. intros (_ & ? & ?) Hk. by split_and!. Qed.

Lemma extended_confined cell count st :
  confined P M0 S0 (record_move cell st) →
  (∀ c, c ∈ (with_new_sentence cell count st).2.1 → P c) →
  confined P M0 S0 (extended cell count st).
Proof.
  unfold extended, with_new_sentence. cbn [fst snd].
  set (st1 := record_move cell st).
  set (nc := get_neighbors st1 cell count).
  intros Hst1 Hnew.
  assert (confined P M0 S0 (append_sentence nc.1 nc.2 st1)) as Hst2.
  { apply confined_set_knowledge; [done|]. apply Forall_app. split.
    - apply Hst1.
    - by apply Forall_singleton. }
  set (st2 := append_sentence nc.1 nc.2 st1) in *.
  pose proof (resolve_new_reachP nc.1 nc.2 st2 Hnew) as Hr3.
  set (st3 := resolve_new nc.1 nc.2 st2) in *.
  assert (confined P M0 S0 st3) as Hst3 by (eapply confined_reach; eauto).
  destruct (foldl_infer_step_confined nc.1 nc.2 (length (knowledge st1))
              (seq 0 (length (knowledge st3))) (st3, [])) as [Hr4 Hinf];
    [done|done|constructor|].
  fold (draw_inferences nc.1 nc.2 (length (knowledge st1)) st3) in Hr4, Hinf.
  set (di := draw_inferences nc.1 nc.2 (length (knowledge st1)) st3) in *.
  cbn [fst] in Hr4.
  assert (confined P M0 S0 di.1) as Hst4 by (eapply confined_reach; eauto).
  apply confined_set_knowledge; [done|]. apply Forall_app. split; [apply Hst4|done].
Qed.

(** From the state with the probed cell marked safe to the end of the call. *)
Lemma add_knowledge_confined cell count st :
  confined P M0 S0 (record_move cell st) →
  (∀ c, c ∈ (with_new_sentence cell count st).2.1 → P c) →
  confined P M0 S0 (add_knowledge cell count st).
Proof.
  intros Hst1 Hnew. unfold add_knowledge.
  pose proof (extended_confined cell count st Hst1 Hnew) as H4.
  assert (confined P M0 S0 (remove_duplicates (extended cell count st))) as H5.
  { apply confined_set_knowledge; [done|].
    destruct H4 as (Hk & _). unfold cells_in in *. rewrite Forall_forall in Hk |- *.
    intros s Hs. apply Hk.
    apply foldl_unique_step_elem_of in Hs as [Hs|Hs]; [by apply elem_of_nil in Hs|done]. }
  eapply confined_reach; [|apply H5].
  rewrite final_cleanup_fold. by apply (foldl_cleanup_step_confined _ (_, [])).
Qed.

End Confined.

(** X14. When [add_knowledge] returns, no held sentence mentions the probed
    cell, and the probed cell is in [mines] only if it was there before the
    call. *)
Theorem probed_cell_in_no_sentence (cell : Cell) (count : Z) (st : t) :
  (∀ s, s ∈ knowledge (add_knowledge cell count st) → cell ∉ Sentence.cells s) ∧
  (cell ∈ mines (add_knowledge cell count st) → cell ∈ mines st).
Proof.
  assert (confined (λ c, c ≠ cell) (mines st) ({[cell]} ∪ safes st)
            (add_knowledge cell count st)) as (Hk & Hm & _).
  { apply add_knowledge_confined.
    - unfold confined, record_move, mark_safe. cbn [knowledge mines safes].
      split_and!; [|by left|by left].
      apply Forall_fmap, Forall_forall. intros s _ c. unfold compose.
      rewrite mark_safe_cells. set_solver.
    - unfold with_new_sentence. cbn [fst snd]. rewrite get_neighbors_spec.
      cbn [fst]. intros c Hc ->. revert Hc.
      unfold record_move, mark_safe. cbn [safes height width mines].
      set (N := board_neighbors _ _ _). clearbody N. set_solver. }
  split.
  - intros s Hs Hc. unfold cells_in in Hk. rewrite Forall_forall in Hk.
    by apply (Hk s Hs cell).
  - intros Hc. destruct (Hm cell Hc); done.
Qed.

Section InBounds.

Implicit Types (st : t).

Lemma add_knowledge_in_bounds cell count st :
  confined (in_bounds (height st) (width st)) ∅ (moves_made st) st →
  confined (in_bounds (height st) (width st)) ∅
           (moves_made (add_knowledge cell count st)) (add_knowledge cell count st).
Proof.
  intros (Hk & Hm & Hs).
  destruct (add_knowledge_frame_aux cell count st) as (_ & _ & -> & _).
  apply add_knowledge_confined.
  - unfold confined, record_move, mark_safe. cbn [knowledge mines safes].
    split_and!.
    + apply Forall_fmap. eapply Forall_impl; [apply Hk|].
      intros s Hsc c. unfold compose. rewrite mark_safe_cells. set_solver.
    + done.
    + intros c [->%elem_of_singleton|Hc]%elem_of_union; [left; set_solver|].
      destruct (Hs c Hc); [left; set_solver | by right].
  - unfold with_new_sentence. cbn [fst snd]. rewrite get_neighbors_spec.
    cbn [fst]. intros c Hc.
    assert (c ∈ board_neighbors (height st) (width st) cell) as Hn.
    { revert Hc. unfold record_move, mark_safe. cbn [height width].
      set (N := board_neighbors _ _ _). clearbody N. set_solver. }
    by apply elem_of_board_neighbors in Hn as [_ ?].
Qed.

Lemma run_clues_in_bounds clues st :
  confined (in_bounds (height st) (width st)) ∅ (moves_made st) st →
  confined (in_bounds (height st) (width st)) ∅
           (moves_made (run_clues clues st)) (run_clues clues st).
Proof.
  revert st. induction clues as [|[cell count] clues IH]; intros st Hst; [done|].
  unfold run_clues, run. cbn [fmap list_fmap foldl exec fst snd].
  destruct (add_knowledge_dims cell count st) as [Hh Hw].
  rewrite <- Hh, <- Hw. apply IH. rewrite Hh, Hw.
  by apply add_knowledge_in_bounds.
Qed.

End InBounds.

(** X15. After any run of [add_knowledge] calls on a fresh knowledge base,
    with any arguments, every cell of every held sentence and every cell of
    [mines] lies on the board, and every cell of [safes] lies on the board
    or has been probed. *)
Theorem conclusions_stay_on_board (h w : Z) (clues : list (Cell * Z)) :
  (∀ s c, s ∈ knowledge (run_clues clues (init h w)) →
          c ∈ Sentence.cells s → in_bounds h w c) ∧
  (∀ c, c ∈ mines (run_clues clues (init h w)) → in_bounds h w c) ∧
  (∀ c, c ∈ safes (run_clues clues (init h w)) →
        in_bounds h w c ∨ c ∈ moves_made (run_clues clues (init h w))).
Proof.
  destruct (run_clues_in_bounds clues (init h w)) as (Hk & Hm & Hs).
  { unfold confined, init. cbn [knowledge mines safes].
    split_and!; [constructor|set_solver..]. }
  cbn [height width init] in *. split_and!.
  - intros s c Hsk Hc. unfold cells_in in Hk. rewrite Forall_forall in Hk. eauto.
  - intros c Hc. destruct (Hm c Hc) as [H|H]; [set_solver|done].
  - intros c Hc. destruct (Hs c Hc); [by right | by left].
Qed.

(** * The random move *)

Section RandomMove.

Implicit Types (st : t) (c : Cell).

Lemma foldl_all_moves_step st (i : Z) (js : list Z) (acc : gset Cell) c :
  c ∈ foldl (all_moves_step st i) acc js
  ↔ c ∈ acc ∨ (c.1 = i ∧ c.2 ∈ js ∧ (c ∉ mines st) ∧ (c ∉ moves_made st)).
Proof.
  revert acc. induction js as [|j js IH]; intros acc; cbn [foldl].
  - rewrite elem_of_nil. tauto.
  - rewrite IH, elem_of_cons. unfold all_moves_step.
    destruct c as [a b]. cbn [fst snd]. case_bool_decide as H.
    + rewrite elem_of_union, elem_of_singleton. split.
      * intros [[[= -> ->]|?]|?]; [right|by left|tauto]. tauto.
      * intros [?|(-> & [->|?] & ? & ?)]; [tauto| |tauto]. left. by left.
    + split; [tauto|].
      intros [?|(-> & [->|?] & ? & ?)]; [tauto| |tauto]. tauto.
Qed.

Lemma foldl_all_moves st (rows js : list Z) (acc : gset Cell) c :
  c ∈ foldl (λ acc i, foldl (all_moves_step st i) acc js) acc rows
  ↔ c ∈ acc ∨ (c.1 ∈ rows ∧ c.2 ∈ js ∧ (c ∉ mines st) ∧ (c ∉ moves_made st)).
Proof.
  revert acc. induction rows as [|i rows IH]; intros acc; cbn [foldl].
  - rewrite elem_of_nil. tauto.
  - rewrite IH, foldl_all_moves_step, elem_of_cons. naive_solver.
Qed.

Lemma elem_of_all_moves st c :
  c ∈ all_moves st
  ↔ in_bounds (height st) (width st) c ∧ (c ∉ mines st) ∧ (c ∉ moves_made st).
Proof.
  unfold all_moves, range, in_bounds. rewrite foldl_all_moves, !elem_of_seqZ.
  rewrite elem_of_empty. split.
  - intros [[]|(? & ? & ? & ?)]. split_and!; try done; lia.
  - intros ((? & ? & ? & ?) & ? & ?). right. split_and!; try done; lia.
Qed.

End RandomMove.

(** X16. [make_random_move] returns [None] exactly when every cell of the
    board is a known mine or a move made; a cell it returns lies on the
    board, is not a known mine and is not a move made (it may be a cell
    known to be safe). *)
Theorem make_random_move_candidates (randbelow : nat → nat) (st : t) :
  (∀ n, 0 < n → randbelow n < n) →
  (make_random_move randbelow st = None
   ↔ ∀ c, in_bounds (height st) (width st) c → c ∈ mines st ∨ c ∈ moves_made st) ∧
  (∀ c, make_random_move randbelow st = Some c →
        in_bounds (height st) (width st) c ∧ (c ∉ mines st) ∧ (c ∉ moves_made st)).
Proof.
  intros Hrand. unfold make_random_move.
  pose proof (elem_of_all_moves st) as Hall.
  set (A := all_moves st) in *. clearbody A.
  destruct (decide (0 < size A)) as [Hpos|Hzero].
  - specialize (Hrand _ Hpos).
    destruct (elements A !! randbelow (size A)) as [c|] eqn:Hc.
    + assert (c ∈ A) as Hin.
      { apply elem_of_elements, list_elem_of_lookup. eauto. }
      split.
      * split; [done|]. intros Hno. apply Hall in Hin as (Hb & Hm & Hmv).
        destruct (Hno c Hb); done.
      * intros c' [= <-]. by apply Hall.
    + apply lookup_ge_None in Hc.
      change (size A) with (length (elements A)) in *. lia.
  - assert (A = ∅) as ->.
    { apply leibniz_equiv, size_empty_iff. lia. }
    split; [|done]. split; [|done]. intros _ c Hb.
    destruct (decide (c ∈ mines st)) as [|Hm]; [by left|].
    destruct (decide (c ∈ moves_made st)) as [|Hmv]; [by right|].
    exfalso. eapply (not_elem_of_empty (C := gset Cell)), Hall. eauto.
Qed.

Lemma make_random_move_candidates_witness :
  (make_random_move (λ _, 0) board33 = None
   ↔ ∀ c, in_bounds (height board33) (width board33) c →
          c ∈ mines board33 ∨ c ∈ moves_made board33) ∧
  (∀ c, make_random_move (λ _, 0) board33 = Some c →
        in_bounds (height board33) (width board33) c ∧
        (c ∉ mines board33) ∧ (c ∉ moves_made board33)).
Proof. apply make_random_move_candidates. intros n Hn. exact Hn. Defined.

(** * The game board *)

Section Board.

Implicit Types (g : Minesweeper.t) (c : Cell).

Lemma index_in_range {A} (l : list A) (i : Z) :
  (0 ≤ i < Z.of_nat (length l))%Z → Minesweeper.index l i = Some (Z.to_nat i).
Proof.
  intros [? ?]. unfold Minesweeper.index.
  rewrite decide_True by done. by rewrite decide_True.
Qed.

Lemma index_negative {A} (l : list A) (i : Z) :
  (- Z.of_nat (length l) ≤ i < 0)%Z →
  Minesweeper.index l i = Minesweeper.index l (Z.of_nat (length l) + i).
Proof.
  intros [? ?]. unfold Minesweeper.index.
  rewrite (decide_False (P := (0 ≤ i)%Z)) by lia.
  rewrite (decide_True (P := (- Z.of_nat (length l) ≤ i)%Z)) by done.
  rewrite (decide_True (P := (0 ≤ Z.of_nat (length l) + i)%Z)) by lia.
  by rewrite decide_True by lia.
Qed.

Lemma index_out_of_range {A} (l : list A) (i : Z) :
  (i < - Z.of_nat (length l) ∨ Z.of_nat (length l) ≤ i)%Z →
  Minesweeper.index l i = None.
Proof.
  intros H. unfold Minesweeper.index. destruct (decide (0 ≤ i)%Z).
  - by rewrite decide_False by lia.
  - by rewrite decide_False by lia.
Qed.

Lemma well_formed_row g (i : Z) :
  well_formed g → (0 ≤ i < Minesweeper.height g)%Z →
  ∃ row, Minesweeper.board g !! Z.to_nat i = Some row ∧
         length row = Z.to_nat (Minesweeper.width g).
Proof.
  intros (Hlen & Hrows & _) Hi.
  destruct (lookup_lt_is_Some_2 (Minesweeper.board g) (Z.to_nat i)) as [row Hrow];
    [lia|].
  exists row. split; [done|]. by apply (Forall_lookup_1 _ _ _ _ Hrows Hrow).
Qed.

Lemma board_get_in_bounds g (i j : Z) :
  well_formed g → in_bounds (Minesweeper.height g) (Minesweeper.width g) (i, j) →
  Minesweeper.board_get g i j = Some (bool_decide ((i, j) ∈ Minesweeper.mines g)).
Proof.
  intros Hwf (Hi0 & Hi1 & Hj0 & Hj1). cbn [fst snd] in *.
  destruct (well_formed_row g i Hwf) as (row & Hrow & Hlen); [lia|].
  destruct Hwf as (Hh & _ & Hb & _).
  unfold Minesweeper.board_get, Minesweeper.getitem.
  rewrite index_in_range by lia. rewrite Hrow.
  rewrite index_in_range by lia.
  destruct (lookup_lt_is_Some_2 row (Z.to_nat j)) as [b Hbj]; [lia|].
  rewrite Hbj. f_equal. specialize (Hb _ (Z.to_nat j) _ Hrow).
  rewrite !Z2Nat.id in Hb by lia.
  destruct b.
  - symmetry. apply bool_decide_eq_true. by apply Hb.
  - symmetry. apply bool_decide_eq_false. intros Hin. apply Hb in Hin. congruence.
Qed.

End Board.

(** X17. On a well-formed board [is_mine] tells, for a cell of the board,
    whether the cell is a mine; a negative row or column counts from the
    end, as every Python subscript does, and a row outside
    [-height, height) raises. *)
Theorem is_mine_on_board (g : Minesweeper.t) (i j : Z) :
  well_formed g →
  (in_bounds (Minesweeper.height g) (Minesweeper.width g) (i, j) →
   Minesweeper.is_mine g (i, j)
   = Some (bool_decide ((i, j) ∈ Minesweeper.mines g))) ∧
  ((- Minesweeper.height g ≤ i < 0)%Z → (- Minesweeper.width g ≤ j < 0)%Z →
   Minesweeper.is_mine g (i, j)
   = Minesweeper.is_mine g ((Minesweeper.height g + i)%Z, (Minesweeper.width g + j)%Z)) ∧
  ((i < - Minesweeper.height g ∨ Minesweeper.height g ≤ i)%Z → (0 ≤ Minesweeper.height g)%Z →
   Minesweeper.is_mine g (i, j) = None).
Proof.
  intros Hwf. split_and!.
  - intros Hb. by apply board_get_in_bounds.
  - intros Hi Hj. unfold Minesweeper.is_mine, Minesweeper.board_get,
      Minesweeper.getitem. cbn [fst snd].
    destruct Hwf as (Hh & Hrows & _).
    rewrite index_negative by lia.
    replace (Z.of_nat (length (Minesweeper.board g)) + i)%Z
      with (Minesweeper.height g + i)%Z by lia.
    destruct (Minesweeper.index (Minesweeper.board g) (Minesweeper.height g + i))
      as [k|]; [|done].
    destruct (Minesweeper.board g !! k) as [row|] eqn:Hrow; [|done].
    pose proof (Forall_lookup_1 _ _ _ _ Hrows Hrow) as Hlen. cbn in Hlen.
    rewrite index_negative by lia.
    by replace (Z.of_nat (length row) + j)%Z with (Minesweeper.width g + j)%Z by lia.
  - intros Hi Hh0. unfold Minesweeper.is_mine, Minesweeper.board_get,
      Minesweeper.getitem. cbn [fst snd].
    destruct Hwf as (Hh & _). by rewrite index_out_of_range by lia.
Qed.

Section NearbyMines.

Implicit Types (g : Minesweeper.t) (c : Cell).

Lemma range2_three (x : Z) :
  Minesweeper.range2 (x - 1) (x + 2) = [(x - 1)%Z; x; (x + 1)%Z].
Proof.
  unfold Minesweeper.range2. replace (x + 2 - (x - 1))%Z with 3%Z by lia.
  rewrite seqZ_cons by lia. rewrite seqZ_cons by lia. rewrite seqZ_cons by lia.
  rewrite seqZ_nil by lia. repeat f_equal; lia.
Qed.

Lemma nearby_mines_step_self g (x y count : Z) :
  Minesweeper.nearby_mines_step g (x, y) x (Some count) y = Some count.
Proof. unfold Minesweeper.nearby_mines_step. by rewrite decide_True. Qed.

Lemma nearby_mines_step_other g cell (i j count : Z) :
  well_formed g → (i, j) ≠ cell →
  Minesweeper.nearby_mines_step g cell i (Some count) j
  = Some (count + counts g (i, j))%Z.
Proof.
  intros Hwf Hne. unfold Minesweeper.nearby_mines_step, counts.
  rewrite decide_False by done.
  case_bool_decide as Hb.
  - rewrite board_get_in_bounds by done.
    case_bool_decide as Hm.
    + rewrite decide_True; [done|]. split; [|done]. done.
    + rewrite decide_False by tauto. f_equal. lia.
  - rewrite decide_False; [f_equal; lia|].
    intros [Hin _]. apply Hb. apply Hin.
Qed.

Lemma length_filter_counts g (l : list Cell) :
  Z.of_nat (length (filter (λ c, c ∈ Minesweeper.mines g)
                      (filter (in_bounds (Minesweeper.height g) (Minesweeper.width g)) l)))
  = foldr (λ c acc, (counts g c + acc)%Z) 0%Z l.
Proof.
  induction l as [|c l IH]; [done|]. cbn [foldr]. rewrite <- IH.
  unfold counts. rewrite filter_cons.
  destruct (decide (in_bounds _ _ c)) as [Hb|Hb].
  - rewrite filter_cons. destruct (decide (c ∈ Minesweeper.mines g)) as [Hm|Hm].
    + rewrite decide_True by done. cbn [length]. lia.
    + rewrite decide_False by tauto. lia.
  - rewrite decide_False by tauto. lia.
Qed.

Lemma nearby_mines_spec g cell :
  well_formed g →
  Minesweeper.nearby_mines g cell
  = Some (Z.of_nat (size (board_neighbors (Minesweeper.height g)
                            (Minesweeper.width g) cell ∩ Minesweeper.mines g))).
Proof.
  intros Hwf. destruct cell as [x y].
  unfold Minesweeper.nearby_mines. cbn [fst snd]. rewrite !range2_three.
  cbn [foldl].
  repeat first
    [ rewrite nearby_mines_step_self
    | rewrite (nearby_mines_step_other g (x, y)) by (done || (intros [=]; lia)) ].
  f_equal. unfold board_neighbors.
  set (N := filter (in_bounds (Minesweeper.height g) (Minesweeper.width g))
              (around (x, y))).
  assert (NoDup N) as HN by apply NoDup_filter, NoDup_around.
  replace (list_to_set N ∩ Minesweeper.mines g)
    with (list_to_set (C := gset Cell) (filter (λ c, c ∈ Minesweeper.mines g) N)).
  2:{ apply set_eq. intros c.
      rewrite elem_of_intersection, !elem_of_list_to_set, list_elem_of_filter. tauto. }
  rewrite size_list_to_set by by apply NoDup_filter.
  unfold N. rewrite length_filter_counts.
  unfold around, offsets. cbn [fmap list_fmap foldr fst snd].
  replace (x + -1)%Z with (x - 1)%Z by lia.
  replace (y + -1)%Z with (y - 1)%Z by lia.
  replace (x + 0)%Z with x by lia. replace (y + 0)%Z with y by lia.
  lia.
Qed.

End NearbyMines.

(** * Building the board *)

Section Init.

Implicit Types (g : Minesweeper.t) (c : Cell) (draws : list (Z * Z)).

Lemma foldl_append_const {A B} (x : A) (xs : list B) (acc : list A) :
  foldl (λ l _, l ++ [x]) acc xs = acc ++ replicate (length xs) x.
Proof.
  revert acc. induction xs as [|b xs IH]; intros acc; cbn [foldl length replicate].
  - by rewrite app_nil_r.
  - rewrite IH, <- app_assoc. done.
Qed.

Lemma empty_board_replicate (h w : Z) :
  Minesweeper.empty_board h w
  = replicate (Z.to_nat h) (replicate (Z.to_nat w) false).
Proof.
  unfold Minesweeper.empty_board, Minesweeper.empty_row, range.
  by rewrite !foldl_append_const, !length_seqZ.
Qed.

Lemma well_formed_empty (h w : Z) (found : gset Cell) :
  well_formed (Minesweeper.mk h w ∅ (Minesweeper.empty_board h w) found).
Proof.
  unfold well_formed. cbn. rewrite empty_board_replicate. split_and!.
  - apply length_replicate.
  - apply Forall_replicate, length_replicate.
  - intros i j row [-> _]%lookup_replicate. split.
    + by intros [? _]%lookup_replicate.
    + set_solver.
  - set_solver.
Qed.

Lemma board_set_true_well_formed g (i j : Z) :
  well_formed g → in_bounds (Minesweeper.height g) (Minesweeper.width g) (i, j) →
  ∃ board',
    Minesweeper.board_set_true g i j = Some board' ∧
    well_formed (Minesweeper.mk (Minesweeper.height g) (Minesweeper.width g)
                   ({[(i, j)]} ∪ Minesweeper.mines g) board'
                   (Minesweeper.mines_found g)).
Proof.
  intros Hwf (Hi0 & Hi1 & Hj0 & Hj1). cbn [fst snd] in *.
  destruct (well_formed_row g i Hwf) as (row & Hrow & Hlen); [lia|].
  destruct Hwf as (Hh & Hrows & Hb & Hm).
  unfold Minesweeper.board_set_true, Minesweeper.getitem, Minesweeper.setitem.
  rewrite index_in_range by lia. rewrite Hrow.
  rewrite index_in_range by lia.
  eexists. split; [done|]. unfold well_formed. cbn. split_and!.
  - by rewrite length_insert.
  - apply Forall_insert; [done|]. by rewrite length_insert.
  - intros i' j' row' Hrow'.
    destruct (decide (i' = Z.to_nat i)) as [->|Hne].
    + rewrite list_lookup_insert_eq in Hrow' by lia. injection Hrow' as <-.
      destruct (decide (j' = Z.to_nat j)) as [->|Hnej].
      * rewrite list_lookup_insert_eq by lia. rewrite !Z2Nat.id by lia.
        split; [set_solver|done].
      * rewrite list_lookup_insert_ne by done. rewrite (Hb _ j' _ Hrow).
        rewrite elem_of_union, elem_of_singleton. split; [tauto|].
        intros [[= _ Hj]|?]; [lia|done].
    + rewrite list_lookup_insert_ne in Hrow' by done. rewrite (Hb _ j' _ Hrow').
      rewrite elem_of_union, elem_of_singleton. split; [tauto|].
      intros [[= Hi _]|?]; [lia|done].
  - intros c [->%elem_of_singleton|Hc]%elem_of_union; [|by apply Hm].
    unfold in_bounds. cbn. lia.
Qed.

Lemma place_mines_unfold (n : Z) draws g :
  Minesweeper.place_mines n draws g
  = if decide (Z.of_nat (size (Minesweeper.mines g)) = n) then Minesweeper.Returned g
    else if decide (Minesweeper.height g ≤ 0)%Z then Minesweeper.Raised
    else if decide (Minesweeper.width g ≤ 0)%Z then Minesweeper.Raised
    else
      match draws with
      | [] => Minesweeper.Running
      | (i, j) :: draws =>
          match Minesweeper.board_get g i j with
          | None => Minesweeper.Raised
          | Some true => Minesweeper.place_mines n draws g
          | Some false =>
              match Minesweeper.board_set_true g i j with
              | None => Minesweeper.Raised
              | Some board' =>
                  Minesweeper.place_mines n draws
                    (Minesweeper.mk (Minesweeper.height g) (Minesweeper.width g)
                       ({[(i, j)]} ∪ Minesweeper.mines g) board'
                       (Minesweeper.mines_found g))
              end
          end
      end.
Proof. by destruct draws as [|[i j] draws]. Qed.

(** What a returned board looks like. *)
Lemma place_mines_returned (n : Z) draws g g' :
  well_formed g →
  Forall (in_bounds (Minesweeper.height g) (Minesweeper.width g)) draws →
  Minesweeper.place_mines n draws g = Minesweeper.Returned g' →
  well_formed g' ∧ Z.of_nat (size (Minesweeper.mines g')) = n ∧
  Minesweeper.mines g ⊆ Minesweeper.mines g' ∧
  Minesweeper.mines g' ⊆ Minesweeper.mines g ∪ list_to_set draws ∧
  Minesweeper.height g' = Minesweeper.height g ∧
  Minesweeper.width g' = Minesweeper.width g ∧
  Minesweeper.mines_found g' = Minesweeper.mines_found g.
Proof.
  intros Hwf Hdraws. revert g Hwf Hdraws.
  induction draws as [|[i j] draws IH]; intros g Hwf Hdraws;
    rewrite place_mines_unfold; repeat case_decide; try done.
  - intros [= <-]. split_and!; try done. apply union_subseteq_l.
  - intros [= <-]. split_and!; try done. apply union_subseteq_l.
  - apply Forall_cons in Hdraws as [Hij Hdraws].
    rewrite board_get_in_bounds by done. case_bool_decide as Hin.
    + intros Hres. destruct (IH g Hwf Hdraws Hres) as (? & ? & ? & Hsub & ? & ? & ?).
      split_and!; try done. clear -Hsub. set_solver.
    + destruct (board_set_true_well_formed g i j Hwf Hij) as (board' & -> & Hwf').
      intros Hres.
      destruct (IH _ Hwf' Hdraws Hres) as (? & ? & Hsub1 & Hsub2 & ? & ? & ?).
      cbn [Minesweeper.mines Minesweeper.height Minesweeper.width
           Minesweeper.mines_found] in *.
      split_and!; try done; clear -Hsub1 Hsub2; set_solver.
Qed.

(** Distinct draws that are new mines are all placed. *)
Lemma place_mines_distinct (n : Z) draws g :
  well_formed g →
  Forall (in_bounds (Minesweeper.height g) (Minesweeper.width g)) draws →
  NoDup draws → (∀ c, c ∈ draws → c ∉ Minesweeper.mines g) →
  Z.of_nat (size (Minesweeper.mines g) + length draws) = n →
  ∃ g', Minesweeper.place_mines n draws g = Minesweeper.Returned g' ∧
        Minesweeper.mines g' = Minesweeper.mines g ∪ list_to_set draws.
Proof.
  intros Hwf Hdraws Hnd. revert g Hwf Hdraws.
  induction Hnd as [|[i j] draws Hnotin Hnd IH]; intros g Hwf Hdraws Hnew Hn;
    rewrite place_mines_unfold.
  - cbn [length] in Hn. rewrite decide_True by lia. exists g. split; [done|].
    set_solver.
  - cbn [length] in Hn. apply Forall_cons in Hdraws as [Hij Hdraws].
    rewrite decide_False by lia.
    destruct Hij as (? & ? & ? & ?) eqn:E. cbn [fst snd] in *.
    rewrite decide_False by lia. rewrite decide_False by lia.
    rewrite board_get_in_bounds by done.
    rewrite bool_decide_eq_false_2 by (apply Hnew; left).
    destruct (board_set_true_well_formed g i j Hwf Hij) as (board' & -> & Hwf').
    destruct (IH _ Hwf' Hdraws) as (g' & -> & Hm).
    + cbn. intros c Hc. rewrite elem_of_union, elem_of_singleton.
      intros [->|Hin]; [done|]. apply (Hnew c); [by right|done].
    + cbn. rewrite size_union by (specialize (Hnew (i, j)); set_solver).
      rewrite size_singleton. lia.
    + exists g'. split; [done|]. rewrite Hm. cbn. set_solver.
Qed.

(** With a target that no set of cells of the board can have as its size,
    the loop goes on for ever. *)
Lemma place_mines_running (n : Z) draws g :
  well_formed g →
  Forall (in_bounds (Minesweeper.height g) (Minesweeper.width g)) draws →
  (0 < Minesweeper.height g)%Z → (0 < Minesweeper.width g)%Z →
  (∀ X : gset Cell,
     (∀ c, c ∈ X → in_bounds (Minesweeper.height g) (Minesweeper.width g) c) →
     Z.of_nat (size X) ≠ n) →
  Minesweeper.place_mines n draws g = Minesweeper.Running.
Proof.
  intros Hwf Hdraws Hh Hw Hno. revert g Hwf Hdraws Hh Hw Hno.
  induction draws as [|[i j] draws IH]; intros g Hwf Hdraws Hh Hw Hno;
    rewrite place_mines_unfold.
  - rewrite decide_False by (apply Hno, Hwf).
    rewrite decide_False by lia. by rewrite decide_False by lia.
  - rewrite decide_False by (apply Hno, Hwf).
    rewrite decide_False by lia. rewrite decide_False by lia.
    apply Forall_cons in Hdraws as [Hij Hdraws].
    rewrite board_get_in_bounds by done. case_bool_decide.
    + by apply IH.
    + destruct (board_set_true_well_formed g i j Hwf Hij) as (board' & -> & Hwf').
      by apply IH.
Qed.

Lemma size_list_to_set_le (l : list Cell) :
  size (list_to_set (C := gset Cell) l) ≤ length l.
Proof.
  induction l as [|c l IH]; cbn [list_to_set length].
  - by rewrite size_empty.
  - rewrite size_union_alt, size_singleton.
    assert (size (list_to_set (C := gset Cell) l ∖ {[c]}) ≤ size (list_to_set (C := gset Cell) l))
      by (apply subseteq_size; set_solver).
    lia.
Qed.

Lemma size_on_board (h w : Z) (X : gset Cell) :
  (∀ c, c ∈ X → in_bounds h w c) → size X ≤ Z.to_nat h * Z.to_nat w.
Proof.
  intros HX.
  assert (X ⊆ list_to_set (list_prod (seqZ 0 h) (seqZ 0 w))) as Hsub.
  { intros [i j] Hc. apply elem_of_list_to_set, list_elem_of_In, in_prod_iff.
    destruct (HX _ Hc) as (? & ? & ? & ?). cbn [fst snd] in *.
    split; apply list_elem_of_In, elem_of_seqZ; lia. }
  apply subseteq_size in Hsub. etrans; [apply Hsub|].
  etrans; [apply size_list_to_set_le|].
  by rewrite length_prod, !length_seqZ.
Qed.

End Init.

Section InitResults.

Implicit Types (g : Minesweeper.t) (draws : list (Z * Z)).

Lemma init_returned_aux (h w n : Z) draws g :
  Forall (in_bounds h w) draws →
  Minesweeper.init h w n draws = Minesweeper.Returned g →
  well_formed g ∧ Z.of_nat (size (Minesweeper.mines g)) = n ∧
  Minesweeper.mines g ⊆ list_to_set draws ∧
  Minesweeper.height g = h ∧ Minesweeper.width g = w ∧
  Minesweeper.mines_found g = ∅.
Proof.
  intros Hdraws. unfold Minesweeper.init.
  destruct (Minesweeper.place_mines n draws _) as [g'| |] eqn:Hres; [|done..].
  intros [= <-].
  destruct (place_mines_returned _ _ _ _ (well_formed_empty h w ∅) Hdraws Hres)
    as (Hwf & Hn & _ & Hsub & Hh & Hw & Hf).
  cbn [Minesweeper.board Minesweeper.height Minesweeper.width Minesweeper.mines
       Minesweeper.mines_found] in *.
  split_and!; try done. clear -Hsub. set_solver.
Qed.

Lemma init_distinct_aux (h w n : Z) draws :
  Forall (in_bounds h w) draws → NoDup draws → Z.of_nat (length draws) = n →
  ∃ g, Minesweeper.init h w n draws = Minesweeper.Returned g ∧
       Minesweeper.mines g = list_to_set draws.
Proof.
  intros Hdraws Hnd Hn. unfold Minesweeper.init.
  destruct (place_mines_distinct n draws
              (Minesweeper.mk h w ∅ (Minesweeper.empty_board h w) ∅))
    as (g & -> & Hm); [apply well_formed_empty|done|done|set_solver| |].
  - cbn. rewrite size_empty. lia.
  - eexists. split; [done|]. cbn [Minesweeper.mines] in *. rewrite Hm.
    apply leibniz_equiv. apply (left_id ∅ (∪)).
Qed.

End InitResults.

(** X19. When the random draws are [mines] distinct cells of the board,
    [Minesweeper(height, width, mines)] returns, and the game has exactly
    the drawn cells as mines, a board that agrees with them, the given
    height and width, and no mine found. *)
Theorem init_places_the_drawn_mines (h w n : Z) (draws : list (Z * Z)) :
  Forall (in_bounds h w) draws → NoDup draws → Z.of_nat (length draws) = n →
  ∃ g, Minesweeper.init h w n draws = Minesweeper.Returned g ∧
       well_formed g ∧ Minesweeper.mines g = list_to_set draws ∧
       Minesweeper.height g = h ∧ Minesweeper.width g = w ∧
       Minesweeper.mines_found g = ∅.
Proof.
  intros Hdraws Hnd Hn.
  destruct (init_distinct_aux h w n draws Hdraws Hnd Hn) as (g & Hres & Hm).
  destruct (init_returned_aux h w n draws g Hdraws Hres) as (? & ? & ? & ? & ? & ?).
  exists g. by split_and!.
Qed.

(** X20. Whatever the random draws (cells of the board, repeated or not), a
    game that [Minesweeper(height, width, mines)] returns has exactly
    [mines] mines, all among the drawn cells, a board that agrees with them,
    the given height and width and no mine found; [won()] is true for it
    only when it has no mine. *)
Theorem init_result_is_well_formed (h w n : Z) (draws : list (Z * Z))
    (g : Minesweeper.t) :
  Forall (in_bounds h w) draws →
  Minesweeper.init h w n draws = Minesweeper.Returned g →
  well_formed g ∧ Z.of_nat (size (Minesweeper.mines g)) = n ∧
  Minesweeper.mines g ⊆ list_to_set draws ∧
  Minesweeper.height g = h ∧ Minesweeper.width g = w ∧
  Minesweeper.mines_found g = ∅ ∧
  (Minesweeper.won g = true ↔ n = 0%Z).
Proof.
  intros Hdraws Hres.
  destruct (init_returned_aux h w n draws g Hdraws Hres)
    as (Hwf & Hn & Hsub & Hh & Hw & Hf).
  split_and!; try done.
  unfold Minesweeper.won. rewrite Hf, bool_decide_eq_true. split.
  - intros Heq. rewrite <- Heq, size_empty in Hn. lia.
  - intros ->. symmetry. apply leibniz_equiv, size_empty_iff. lia.
Qed.

(** X21. On a board with at least one cell, when the requested number of
    mines is negative or larger than the number of cells, the loop of
    [__init__] never ends: whatever the draws, and however many, the call
    has neither returned nor raised. *)
Theorem init_never_returns (h w n : Z) (draws : list (Z * Z)) :
  Forall (in_bounds h w) draws → (0 < h)%Z → (0 < w)%Z →
  (n < 0 ∨ h * w < n)%Z →
  Minesweeper.init h w n draws = Minesweeper.Running.
Proof.
  intros Hdraws Hh Hw Hn. unfold Minesweeper.init.
  rewrite place_mines_running; [done|apply well_formed_empty|done..|].
  cbn. intros X HX Hsize. apply size_on_board in HX. nia.
Qed.

(** X22. With 0 mines requested [__init__] returns the empty field at once,
    for any height and width; with another number of mines and a height or
    width that is not positive it raises, since [randrange] has nothing to
    draw from. *)
Theorem init_without_cells (h w n : Z) (draws : list (Z * Z)) :
  Minesweeper.init h w 0 draws
  = Minesweeper.Returned
      (Minesweeper.mk h w ∅
         (replicate (Z.to_nat h) (replicate (Z.to_nat w) false)) ∅) ∧
  ((h ≤ 0 ∨ w ≤ 0)%Z → n ≠ 0%Z →
   Minesweeper.init h w n draws = Minesweeper.Raised).
Proof.
  split.
  - unfold Minesweeper.init. rewrite place_mines_unfold.
    cbn [Minesweeper.mines]. rewrite size_empty. cbn.
    by rewrite empty_board_replicate.
  - intros Hhw Hn. unfold Minesweeper.init. rewrite place_mines_unfold.
    cbn [Minesweeper.mines Minesweeper.height Minesweeper.width].
    rewrite size_empty. rewrite decide_False by (cbn; lia).
    destruct (decide (h ≤ 0)%Z); [done|]. by rewrite decide_True by lia.
Qed.

(** * The game and the knowledge base together *)

Lemma game23_returned :
  Minesweeper.init 2 3 2 [(0, 0); (0, 0); (0, 1)]%Z = Minesweeper.Returned game23.
Proof. vm_compute. reflexivity. Qed.

Lemma draws23_in_bounds : Forall (in_bounds 2 3) [(0, 0); (0, 0); (0, 1)]%Z.
Proof. repeat constructor; unfold in_bounds; cbn; lia. Qed.

Lemma game23_well_formed : well_formed game23.
Proof.
  apply (init_returned_aux 2 3 2 [(0, 0); (0, 0); (0, 1)]%Z);
    [apply draws23_in_bounds | apply game23_returned].
Qed.

(** Subscripts of the 2 by 3 game: row -2 is row 0, row 2 raises. *)
Example is_mine_subscripts :
  Minesweeper.is_mine game23 (-2, -3)%Z = Some true ∧
  Minesweeper.is_mine game23 (-1, -1)%Z = Some false ∧
  Minesweeper.is_mine game23 (2, 0)%Z = None ∧
  Minesweeper.is_mine game23 (0, 3)%Z = None.
Proof. by vm_compute. Qed.

Lemma is_mine_on_board_witness :
  (in_bounds (Minesweeper.height game23) (Minesweeper.width game23) (0, 1)%Z →
   Minesweeper.is_mine game23 (0, 1)%Z
   = Some (bool_decide ((0, 1)%Z ∈ Minesweeper.mines game23))) ∧
  ((- Minesweeper.height game23 ≤ 0 < 0)%Z → (- Minesweeper.width game23 ≤ 1 < 0)%Z →
   Minesweeper.is_mine game23 (0, 1)%Z
   = Minesweeper.is_mine game23
       ((Minesweeper.height game23 + 0)%Z, (Minesweeper.width game23 + 1)%Z)) ∧
  ((0 < - Minesweeper.height game23 ∨ Minesweeper.height game23 ≤ 0)%Z →
   (0 ≤ Minesweeper.height game23)%Z →
   Minesweeper.is_mine game23 (0, 1)%Z = None).
Proof. apply is_mine_on_board, game23_well_formed. Defined.

Lemma init_places_the_drawn_mines_witness :
  ∃ g, Minesweeper.init 2 3 2 [(0, 0); (0, 1)]%Z = Minesweeper.Returned g ∧
       well_formed g ∧ Minesweeper.mines g = list_to_set [(0, 0); (0, 1)]%Z ∧
       Minesweeper.height g = 2%Z ∧ Minesweeper.width g = 3%Z ∧
       Minesweeper.mines_found g = ∅.
Proof.
  apply init_places_the_drawn_mines.
  - repeat constructor; unfold in_bounds; cbn; lia.
  - compute_done.
  - reflexivity.
Defined.

Lemma init_result_is_well_formed_witness :
  well_formed game23 ∧ Z.of_nat (size (Minesweeper.mines game23)) = 2%Z ∧
  Minesweeper.mines game23 ⊆ list_to_set [(0, 0); (0, 0); (0, 1)]%Z ∧
  Minesweeper.height game23 = 2%Z ∧ Minesweeper.width game23 = 3%Z ∧
  Minesweeper.mines_found game23 = ∅ ∧
  (Minesweeper.won game23 = true ↔ 2%Z = 0%Z).
Proof.
  apply init_result_is_well_formed.
  - repeat constructor; unfold in_bounds; cbn; lia.
  - vm_compute. reflexivity.
Defined.

Lemma init_never_returns_witness :
  Minesweeper.init 2 2 5 [(0, 0); (1, 1); (0, 0)]%Z = Minesweeper.Running.
Proof.
  apply init_never_returns.
  - repeat constructor; unfold in_bounds; cbn; lia.
  - lia.
  - lia.
  - lia.
Defined.

(** X18. On a well-formed board [nearby_mines] never raises, for any cell,
    and returns the number of cells of the board next to the given cell that
    are mines, a number from 0 to 8. *)
Theorem nearby_mines_counts (g : Minesweeper.t) (cell : Cell) :
  well_formed g →
  ∃ n, Minesweeper.nearby_mines g cell = Some n ∧
       n = Z.of_nat (size (board_neighbors (Minesweeper.height g)
                             (Minesweeper.width g) cell ∩ Minesweeper.mines g)) ∧
       (0 ≤ n ≤ 8)%Z.
Proof.
  intros Hwf. eexists. split; [by apply nearby_mines_spec|]. split; [done|].
  pose proof (size_board_neighbors (Minesweeper.height g) (Minesweeper.width g) cell).
  assert (size (board_neighbors (Minesweeper.height g) (Minesweeper.width g) cell
                ∩ Minesweeper.mines g)
          ≤ size (board_neighbors (Minesweeper.height g) (Minesweeper.width g) cell))
    by (apply subseteq_size; set_solver).
  lia.
Qed.

Lemma nearby_mines_counts_witness :
  ∃ n, Minesweeper.nearby_mines game23 (1, 1)%Z = Some n ∧
       n = Z.of_nat (size (board_neighbors (Minesweeper.height game23)
                             (Minesweeper.width game23) (1, 1)%Z
                           ∩ Minesweeper.mines game23)) ∧
       (0 ≤ n ≤ 8)%Z.
Proof. apply nearby_mines_counts, game23_well_formed. Defined.

(** X23. The clue that the game gives for a cell of the board that is not a
    mine is truthful, and feeding it to [add_knowledge] keeps a knowledge
    base that agrees with the mines of the game in agreement with them. *)
Theorem game_clue_keeps_agreement (g : Minesweeper.t) (st : t) (cell : Cell)
    (n : Z) :
  well_formed g → Sound (Minesweeper.mines g) st →
  height st = Minesweeper.height g → width st = Minesweeper.width g →
  in_bounds (Minesweeper.height g) (Minesweeper.width g) cell →
  Minesweeper.is_mine g cell = Some false →
  Minesweeper.nearby_mines g cell = Some n →
  truthful (Minesweeper.mines g) (height st) (width st) cell n ∧
  Sound (Minesweeper.mines g) (add_knowledge cell n st).
Proof.
  intros Hwf Hst Hh Hw Hb Hmine Hn.
  assert (truthful (Minesweeper.mines g) (height st) (width st) cell n) as Htr.
  { split.
    - destruct cell as [i j]. unfold Minesweeper.is_mine in Hmine.
      cbn [fst snd] in Hmine. rewrite board_get_in_bounds in Hmine by done.
      injection Hmine as Hmine. by apply bool_decide_eq_false in Hmine.
    - rewrite nearby_mines_spec in Hn by done. injection Hn as <-.
      by rewrite Hh, Hw. }
  split; [done|]. by apply add_knowledge_sound.
Qed.

Lemma game_clue_keeps_agreement_witness :
  truthful (Minesweeper.mines game23) (height (init 2 3)) (width (init 2 3))
           (0, 2)%Z 1 ∧
  Sound (Minesweeper.mines game23) (add_knowledge (0, 2)%Z 1 (init 2 3)).
Proof.
  apply (game_clue_keeps_agreement game23 (init 2 3) (0, 2)%Z 1).
  - apply game23_well_formed.
  - apply Sound_init.
  - reflexivity.
  - reflexivity.
  - unfold in_bounds; cbn; lia.
  - vm_compute. reflexivity.
  - vm_compute. reflexivity.
Defined.
